(** * Image resolution of pkg/image (resolve.go, charts.go)

    A shallow embedding of the image-resolution code: the walkers over parsed
    values.yaml trees, the two image extractors, the image/source accumulator,
    the two chart-version selectors, the mirror pass, the materialisation of
    the sorted output lists, and [GetImages].

    Conventions.
    - A Go [string] is a byte string ([string] of Stdlib, one [ascii] per
      byte); [<] on strings is the bytewise lexicographic order.
    - A Go [map[string]...] is a [gmap]; a nil inner map reads like an empty
      one and is modelled as [∅].
    - A parsed YAML mapping ([map[interface{}]interface{}]) is an association
      list; the order of the list stands for the order in which one [range]
      over the map produces its entries, which Go leaves unspecified.
      Statements are made for every list, hence for every iteration order.
    - The index of a chart repository ([IndexFile.Entries] of
      pkg/catalog/helm, a [map[string]ChartVersions]) is a [gmap]; a loop
      over it takes its entries in any order, and a function that runs such
      a loop is a relation between its arguments and what it may return.
    - Functions that mutate the accumulator take it and return the new one.
    - Library functions whose code is outside the package (fmt's [%v] on a
      non-string operand, semver, file IO, img.Mirror, ...) are Section
      variables. *)

From Stdlib Require Import String Ascii ZArith Lia.
From stdpp Require Import base option list sorting gmap sets strings pretty.

Set Warnings "-register-all,-clear-no-such-hyp".
Set Default Proof Using "Type".
Set Proof Using Clear Unused.

(** ** Go's [strings] functions used by the package (on ASCII input) *)

(** The ASCII white space of [unicode.IsSpace]: \t \n \v \f \r and space. *)
Definition is_space (c : ascii) : bool :=
  let n := nat_of_ascii c in
  ((9 <=? n)%nat && (n <=? 13)%nat) || (n =? 32)%nat.

Fixpoint trim_left (s : string) : string :=
  match s with
  | String c s' => if is_space c then trim_left s' else s
  | EmptyString => EmptyString
  end.

Fixpoint trim_right (s : string) : string :=
  match s with
  | EmptyString => EmptyString
  | String c s' =>
      match trim_right s' with
      | EmptyString => if is_space c then EmptyString else String c EmptyString
      | t => String c t
      end
  end.

(** [strings.TrimSpace] *)
Definition TrimSpace (s : string) : string := trim_right (trim_left s).

Definition lower_ascii (c : ascii) : ascii :=
  let n := nat_of_ascii c in
  if ((65 <=? n)%nat && (n <=? 90)%nat) then ascii_of_nat (n + 32) else c.

(** [strings.ToLower] *)
Fixpoint ToLower (s : string) : string :=
  match s with
  | EmptyString => EmptyString
  | String c s' => String (lower_ascii c) (ToLower s')
  end.

(** [strings.Split(s, sep)] for a one-byte separator: the pieces between the
    separators, so one more piece than there are separators. *)
Fixpoint Split (s : string) (sep : ascii) : list string :=
  match s with
  | EmptyString => [EmptyString]
  | String c s' =>
      if Ascii.eqb c sep then EmptyString :: Split s' sep
      else match Split s' sep with
           | [] => [String c EmptyString]
           | piece :: pieces => String c piece :: pieces
           end
  end.

(** [strings.Join] *)
Fixpoint Join (elems : list string) (sep : string) : string :=
  match elems with
  | [] => EmptyString
  | [e] => e
  | e :: rest => e +:+ sep +:+ Join rest sep
  end.

(** [strings.HasPrefix] *)
Definition HasPrefix (s pre : string) : bool := String.prefix pre s.

(** [strings.Contains] *)
Definition Contains (s substr : string) : bool :=
  match substr with
  | EmptyString => true
  | _ => if String.index 0 substr s is Some _ then true else false
  end.

(** The order of [sort.Strings] and of [images[i] < images[j]]. *)
Definition str_le (a b : string) : Prop := String.leb a b = true.
Definition str_lt (a b : string) : Prop := String.ltb a b = true.

#[global] Instance str_le_dec : RelDecision str_le.
Proof. intros a b. unfold str_le. apply _. Defined.

(** [sort.Strings], and [sort.Slice] with [<]: the sorted rearrangement. *)
Definition sort_strings (l : list string) : list string := merge_sort str_le l.

(** ** Errors and results *)

(** An error value: one a library returned, one made by [errors.New] or
    [errors.Errorf], or one wrapped by [errors.Wrap] and [errors.Wrapf]
    (format and arguments are kept as they are written). *)
Inductive error :=
  | LibError (msg : string)
  | Errorf (format : string) (args : list string)
  | Wrapf (cause : error) (format : string) (args : list string).

(** What a call comes back with: its values and a nil error, an error, or a
    run-time panic (an index out of range). *)
Inductive result (A : Type) :=
  | Ok (a : A)
  | Err (e : error)
  | Panic.
Arguments Ok {A} a.
Arguments Err {A} e.
Arguments Panic {A}.

#[global] Instance result_ret : MRet result := λ A, Ok.
#[global] Instance result_bind : MBind result :=
  λ A B f r, match r with Ok a => f a | Err e => Err e | Panic => Panic end.

(** [errors.Wrap(err, msg)] and [errors.Wrapf] on the error of a result. *)
Definition wrap {A : Type} (r : result A) (format : string) (args : list string)
    : result A :=
  match r with
  | Err e => Err (Wrapf e format args)
  | other => other
  end.

(** *** Calls with more than one possible outcome

    The order in which a [range] over a map produces its entries is not
    specified, so a call that ranges over a map may come back with more than
    one thing: [may A] is the set of the outcomes it may come back with. *)
Definition may (A : Type) : Type := A → Prop.

Definition may_ret {A : Type} (a : A) : may A := λ out, out = a.

Definition may_bind {A B : Type} (m : may A) (f : A → may B) : may B :=
  λ out, ∃ a, m a ∧ f a out.

(** Going on after a call when its error is nil, and returning its error
    otherwise. *)
Definition and_then {A B : Type} (m : may (result A)) (f : A → may (result B))
    : may (result B) :=
  may_bind m (λ r, match r with
                   | Ok a => f a
                   | Err e => may_ret (Err e)
                   | Panic => may_ret Panic
                   end).

Definition may_wrap {A : Type} (m : may (result A)) (format : string)
    (args : list string) : may (result A) :=
  may_bind m (λ r, may_ret (wrap r format args)).

Notation "'do' x <- m ; k" := (and_then m (λ x, k))
  (at level 10, x name, m at level 100, k at level 200, only parsing).

(** ** Parsed YAML values *)

(** What yaml.v2 puts behind an [interface{}]: nil, a string, an integer, a
    boolean or a float64 (kept as its bit pattern: the package never computes
    with one), a mapping, or a sequence. *)
Inductive scalar :=
  | SNil
  | SStr (s : string)
  | SInt (z : Z)
  | SBool (b : bool)
  | SFloat (bits : Z).

Inductive value :=
  | Scalar (s : scalar)
  | Mapping (entries : list (scalar * value))
  | Sequence (elems : list value).

Abbreviation yaml_map := (list (scalar * value)).
Abbreviation VStr s := (Scalar (SStr s)).
Abbreviation VNil := (Scalar SNil).

Definition key_is (name : string) (k : scalar) : bool :=
  match k with SStr s => String.eqb s name | _ => false end.

(** [inputMap[name]] with the comma-ok form: [None] when the key is absent. *)
Fixpoint map_get (inputMap : yaml_map) (name : string) : option value :=
  match inputMap with
  | [] => None
  | (k, v) :: rest => if key_is name k then Some v else map_get rest name
  end.

(** [inputMap[name]]: a missing key reads as nil. *)
Definition map_index (inputMap : yaml_map) (name : string) : value :=
  default VNil (map_get inputMap name).

(** [x.(string)] with the comma-ok form. *)
Definition as_string (v : value) : option string :=
  match v with VStr s => Some s | _ => None end.

(** [s, _ := x.(string)]: the empty string when [x] is no string. *)
Definition string_or_empty (v : value) : string := default EmptyString (as_string v).

Definition children (data : value) : list value :=
  match data with
  | Scalar _ => []
  | Mapping m => snd <$> m
  | Sequence l => l
  end.

Definition root_nodes (data : value) : list yaml_map :=
  match data with Mapping m => [m] | _ => [] end.

(** ** The walkers *)

(** charts.go, [walkMap]: the visitor runs on a mapping, then the walk goes
    into every value of it; a sequence is walked element by element; anything
    else is left alone. *)
Fixpoint walkMap {S : Type} (walkFunc : yaml_map → S → S)
    (data : value) (st : S) : S :=
  match data with
  | Mapping inputMap =>
      foldl (λ st kv, walkMap walkFunc kv.2 st) (walkFunc inputMap st) inputMap
  | Sequence inputList =>
      foldl (λ st elem, walkMap walkFunc elem st) st inputList
  | Scalar _ => st
  end.

(** resolve.go, [walkthroughMap]: the visitor runs on the mapping, then the
    walk goes into the values that are mappings themselves, and into no
    others. [walkthrough] is the walk from a value: the type test
    [value.(map[interface{}]interface{})] of the source is its match. *)
Fixpoint walkthrough {S : Type} (walkFunc : yaml_map → S → S)
    (data : value) (st : S) : S :=
  match data with
  | Mapping inputMap =>
      foldl (λ st kv, walkthrough walkFunc kv.2 st) (walkFunc inputMap st) inputMap
  | _ => st
  end.

Definition walkthroughMap {S : Type} (walkFunc : yaml_map → S → S)
    (inputMap : yaml_map) (st : S) : S :=
  walkthrough walkFunc (Mapping inputMap) st.

(** The visitor calls of a walk, in order. *)
Definition record_visit (inputMap : yaml_map) (seen : list yaml_map) : list yaml_map :=
  seen ++ [inputMap].

Definition visits (data : value) : list yaml_map := walkMap record_visit data [].

Definition visits_through (inputMap : yaml_map) : list yaml_map :=
  walkthroughMap record_visit inputMap [].

(** *** Positions in a tree *)

(** A position is the list of child indices from the root. *)
Definition path := list nat.

Fixpoint subtree (data : value) (p : path) : option value :=
  match p with
  | [] => Some data
  | i :: p' => v ← children data !! i; subtree v p'
  end.

(** The positions reached by going through mappings only. *)
Fixpoint subtree_via_maps (data : value) (p : path) : option value :=
  match p with
  | [] => Some data
  | i :: p' =>
      match data with
      | Mapping m => kv ← m !! i; subtree_via_maps kv.2 p'
      | _ => None
      end
  end.

Fixpoint child_paths (i : nat) (pss : list (list path)) : list path :=
  match pss with
  | [] => []
  | ps :: rest => ((i ::.) <$> ps) ++ child_paths (S i) rest
  end.

(** Pre-order list of the positions that hold a mapping. *)
Fixpoint mapping_paths (data : value) : list path :=
  match data with
  | Scalar _ => []
  | Mapping m => [] :: child_paths 0 ((λ kv, mapping_paths kv.2) <$> m)
  | Sequence l => child_paths 0 (mapping_paths <$> l)
  end.

Fixpoint mapping_nodes (data : value) : list yaml_map :=
  match data with
  | Scalar _ => []
  | Mapping m => m :: concat ((λ kv, mapping_nodes kv.2) <$> m)
  | Sequence l => concat (mapping_nodes <$> l)
  end.

(** The same for a walk that goes through mappings only. *)
Fixpoint through_paths (data : value) : list path :=
  match data with
  | Mapping m => [] :: child_paths 0 ((λ kv, through_paths kv.2) <$> m)
  | _ => []
  end.

Fixpoint through_nodes (data : value) : list yaml_map :=
  match data with
  | Mapping m => m :: concat ((λ kv, through_nodes kv.2) <$> m)
  | _ => []
  end.

(** ** The image/source accumulator *)

Abbreviation ImagesSet := (gmap string (gmap string bool)).

(** resolve.go, [addSourceToImage]. *)
Definition addSourceToImage (imagesSet : ImagesSet) (image : string)
    (sources : list string) : ImagesSet :=
  let inner := default ∅ (imagesSet !! image) in
  <[image := foldl (λ m source, <[source := true]> m) inner sources]> imagesSet.

(** [imagesSet[image][source]] is true. *)
Definition has_source (imagesSet : ImagesSet) (image source : string) : Prop :=
  ∃ inner, imagesSet !! image = Some inner ∧ inner !! source = Some true.

(** The sources that are true in an inner map. *)
Definition true_sources (imageSources : gmap string bool) : gset string :=
  dom (filter (λ kv, kv.2 = true) imageSources).

(** resolve.go, [setImages]. *)
Definition setImages (source : string) (imagesFromArgs : list string)
    (imagesSet : ImagesSet) : ImagesSet :=
  foldl (λ acc image, addSourceToImage acc image [source]) imagesSet imagesFromArgs.

(** ** Target operating system *)

Inductive OSType := Linux | Windows.

#[global] Instance OSType_eq_dec : EqDecision OSType.
Proof. solve_decision. Defined.

Definition SystemChartsRepoDir : string := "build/system-charts".

(** ** The extractor of charts.go *)

(** The loop over the comma-separated [os] list: the first token that names
    the target system adds the image and ends the visit. *)
Fixpoint pick_by_os_list (tokens : list string) (osType : OSType)
    (imageName chartNameAndVersion : string) (imagesSet : ImagesSet) : ImagesSet :=
  match tokens with
  | [] => imagesSet
  | os :: rest =>
      let token := TrimSpace (ToLower os) in
      if String.eqb token "windows" then
        match osType with
        | Windows => addSourceToImage imagesSet imageName [chartNameAndVersion]
        | _ => pick_by_os_list rest osType imageName chartNameAndVersion imagesSet
        end
      else if String.eqb token "linux" then
        match osType with
        | Linux => addSourceToImage imagesSet imageName [chartNameAndVersion]
        | _ => pick_by_os_list rest osType imageName chartNameAndVersion imagesSet
        end
      else pick_by_os_list rest osType imageName chartNameAndVersion imagesSet
  end.

(** The visitor that [pickImagesFromValuesMap] hands to [walkMap]. With both
    operands strings, ["%s:%v"] is the two strings around a colon. The error
    value built for an [os] field that is neither a string nor nil is dropped
    by the source, so nothing of it shows here. *)
Definition pickImage (chartNameAndVersion : string) (osType : OSType)
    (inputMap : yaml_map) (imagesSet : ImagesSet) : ImagesSet :=
  match as_string (map_index inputMap "repository") with
  | None => imagesSet
  | Some repository =>
      match as_string (map_index inputMap "tag") with
      | None => imagesSet
      | Some tag =>
          let imageName := repository +:+ ":" +:+ tag in
          match as_string (map_index inputMap "os") with
          | Some osList =>
              pick_by_os_list (Split osList ",") osType imageName
                chartNameAndVersion imagesSet
          | None =>
              match osType with
              | Linux => addSourceToImage imagesSet imageName [chartNameAndVersion]
              | _ => imagesSet
              end
          end
      end
  end.

(** charts.go, [pickImagesFromValuesMap]: its error is always nil. *)
Definition pickImagesFromValuesMap (imagesSet : ImagesSet) (values : yaml_map)
    (chartNameAndVersion : string) (osType : OSType) : result ImagesSet :=
  Ok (walkMap (pickImage chartNameAndVersion osType) (Mapping values) imagesSet).

(** ** Chart versions *)

Record ChartVersion := {
  Name : string;
  Version : string;
  Dir : string;
  LocalFiles : list string;
}.

Abbreviation ChartVersions := (list ChartVersion).

(** charts.go, [Questions]. *)
Record Questions := {
  RancherMinVersion : string;
  RancherMaxVersion : string;
}.

Definition Questions_is_zero (q : Questions) : bool :=
  String.eqb (RancherMinVersion q) "" && String.eqb (RancherMaxVersion q) "".

(** charts.go, [minMaxToConstraintStr]. *)
Definition minMaxToConstraintStr (min max : string) : string :=
  if negb (String.eqb min "") && negb (String.eqb max "") then min +:+ " - " +:+ max
  else if negb (String.eqb min "") then ">= " +:+ min
  else if negb (String.eqb max "") then "<= " +:+ max
  else "".

(** A function with a log: its value and the lines it hands to logrus. *)
Definition logged (A : Type) : Type := A * list string.

(** charts.go, [ResolveCharts]. *)
Record ResolveCharts := {
  getChartVersionsFromIndex : may (result ChartVersions);
  filterFunc : ChartVersion → logged (result bool);
  pickImagesFromAllValues : ImagesSet → ChartVersions → result ImagesSet;
}.

(** [logrus.Info(err)] writes the error's text; the text of an error is kept
    abstract by [show]. *)
Fixpoint filterChartVersions_from (show : error → string) (rc : ResolveCharts)
    (chartVersions filteredChartVersions : ChartVersions) (log : list string)
    : logged (result ChartVersions) :=
  match chartVersions with
  | [] => (Ok filteredChartVersions, log)
  | version :: rest =>
      let '(r, lines) := filterFunc rc version in
      match r with
      | Ok addToFiltered =>
          filterChartVersions_from show rc rest
            (if addToFiltered then filteredChartVersions ++ [version]
             else filteredChartVersions)
            (log ++ lines)
      | Err err =>
          filterChartVersions_from show rc rest filteredChartVersions
            (log ++ lines ++ [show err])
      | Panic => (Panic, log ++ lines)
      end
  end.

(** charts.go, [filterChartVersions]. *)
Definition filterChartVersions (show : error → string) (rc : ResolveCharts)
    (chartVersions : ChartVersions) : logged (result ChartVersions) :=
  filterChartVersions_from show rc chartVersions [] [].

(** charts.go, [fetchImages]: the accumulator it leaves or its error, and
    the lines it logs. *)
Definition fetchImages (show : error → string) (rc : ResolveCharts)
    (imagesSet : ImagesSet) : may (logged (result ImagesSet)) :=
  λ out, ∃ fromIndex,
    getChartVersionsFromIndex rc fromIndex
    ∧ out = match wrap fromIndex "failed to get index" [] with
            | Ok chartVersions =>
                let '(filtered, log) := filterChartVersions show rc chartVersions in
                (filteredChartVersions ← wrap filtered "failed to filter chart versions" [];
                 wrap (pickImagesFromAllValues rc imagesSet filteredChartVersions)
                   "failed to pick images from values file" [],
                 log)
            | Err e => (Err e, [])
            | Panic => (Panic, [])
            end.

(** ** Iterating over a map that the loop body changes

    Go's [for k := range m]: every entry that is in the map when the loop
    starts is produced once, unless it is removed before it is reached; an
    entry created during the loop may be produced or skipped; the order is
    not specified. A loop state holds the map, the entries the loop still has
    to produce ([rs_pending]) and the entries it may produce ([rs_fresh]). *)

Record range_state (V : Type) := {
  rs_map : gmap string V;
  rs_pending : gset string;
  rs_fresh : gset string;
}.
Arguments rs_map {V} _.
Arguments rs_pending {V} _.
Arguments rs_fresh {V} _.

Definition range_start {V : Type} (m : gmap string V) : range_state V :=
  {| rs_map := m; rs_pending := dom m; rs_fresh := ∅ |}.

(** The loop produces [k] and runs the body on it. *)
Definition range_produce {V : Type} (body : string → gmap string V → gmap string V)
    (st : range_state V) (k : string) : range_state V :=
  let m' := body k (rs_map st) in
  {| rs_map := m';
     rs_pending := (rs_pending st ∖ {[k]}) ∩ dom m';
     rs_fresh := ((rs_fresh st ∖ {[k]}) ∩ dom m') ∪ (dom m' ∖ dom (rs_map st)) |}.

Inductive range_step {V : Type} (body : string → gmap string V → gmap string V)
    : range_state V → range_state V → Prop :=
  | range_step_produce st k :
      k ∈ rs_pending st ∪ rs_fresh st →
      range_step body st (range_produce body st k).

(** The loop runs from [st] and ends with the map [r]. *)
Inductive range_run {V : Type} (body : string → gmap string V → gmap string V)
    : range_state V → gmap string V → Prop :=
  | range_run_done st :
      rs_pending st = ∅ → range_run body st (rs_map st)
  | range_run_next st st' r :
      range_step body st st' → range_run body st' r → range_run body st r.

(** ** Collections of system images *)

(** What [convert.ToObj] makes of a collection: string fields, nested
    objects, and fields of any other kind. *)
Inductive obj_value :=
  | OString (s : string)
  | OObject (fields : list (string * obj_value))
  | OOther.

Fixpoint images_of_value (v : obj_value) : list string :=
  match v with
  | OString t => [t]
  | OObject fields => concat ((λ kv, images_of_value kv.2) <$> fields)
  | OOther => []
  end.

(** resolve.go, [fetchImagesFromCollection]. *)
Definition fetchImagesFromCollection (obj : list (string * obj_value)) : list string :=
  concat ((λ kv, images_of_value kv.2) <$> obj).

(** What [flatImagesFromCollections] is handed as [interface{}]: the map of
    the system images of rke, or the tools collection of v32. *)
Inductive collection (RKESystemImages : Type) :=
  | RKECollection (rkeSystemImages : gmap string RKESystemImages)
  | ToolsSystemImages.
Arguments RKECollection {RKESystemImages} rkeSystemImages.
Arguments ToolsSystemImages {RKESystemImages}.

(** One call of the function [filepath.Walk] is given: the path, the name of
    its file info, and the error the walk met there. *)
Record walk_entry := {
  we_path : string;
  we_name : string;
  we_err : option error;
}.

(** ** The materialisation of the output lists *)

(** resolve.go, [getSourcesList], on the entries of the inner map in the
    order its [range] produces them. *)
Definition getSourcesList_in (entries : list (string * bool)) : string :=
  Join (sort_strings (fst <$> filter (λ sv, sv.2 = true) entries)) ",".

Definition getSourcesList (imageSources : gmap string bool) : string :=
  getSourcesList_in (map_to_list imageSources).

(** resolve.go, [generateImageAndSourceLists], with the keys of the
    accumulator and the entries of each inner map in the order the [range]
    loops produce them. *)
Definition generateImageAndSourceLists_with (range_images : list string)
    (range_sources : string → list (string * bool)) : list string * list string :=
  let images := sort_strings range_images in
  (images,
   (λ image, image +:+ " " +:+ getSourcesList_in (range_sources image)) <$> images).

(** The lists a call may return: the [range] loops produce the keys and the
    entries in some order. *)
Definition generateImageAndSourceLists_returns (imagesSet : ImagesSet)
    (lists : list string * list string) : Prop :=
  ∃ range_images range_sources,
    range_images ≡ₚ (map_to_list imagesSet).*1
    ∧ (∀ image inner, imagesSet !! image = Some inner →
                      range_sources image ≡ₚ map_to_list inner)
    ∧ lists = generateImageAndSourceLists_with range_images range_sources.

(** The lists with the loops in the order of [map_to_list], for running it. *)
Definition generateImageAndSourceLists (imagesSet : ImagesSet)
    : list string * list string :=
  generateImageAndSourceLists_with (fst <$> map_to_list imagesSet)
    (λ image, map_to_list (default ∅ (imagesSet !! image))).

(** charts.go, [SystemCharts]. *)
Record SystemCharts := {
  sc_rancherVersion : string;
  sc_repoPath : string;
  sc_osType : OSType;
}.

Definition double_quote : string := String (ascii_of_nat 34) EmptyString.

(** ** Sample data *)

(** A rendering of [%v] for the samples: <nil>, true and false, decimal
    integers; the other kinds are not rendered by any sample. *)
Definition sample_Sprint_v (v : value) : string :=
  match v with
  | Scalar SNil => "<nil>"
  | Scalar (SBool true) => "true"
  | Scalar (SBool false) => "false"
  | Scalar (SInt z) => pretty z
  | Scalar (SStr s) => s
  | _ => "?"
  end.

(** [{repository: rancher/foo, tag: "1.0", os: "windows,linux"}] *)
Definition node_both : yaml_map :=
  [(SStr "repository", VStr "rancher/foo"); (SStr "tag", VStr "1.0");
   (SStr "os", VStr "windows,linux")].

(** [{repository: rancher/foo, tag: "1.0", os: windows}] *)
Definition node_windows : yaml_map :=
  [(SStr "repository", VStr "rancher/foo"); (SStr "tag", VStr "1.0");
   (SStr "os", VStr "windows")].

(** [{repository: rancher/foo, tag: "1.0"}] *)
Definition node_plain : yaml_map :=
  [(SStr "repository", VStr "rancher/foo"); (SStr "tag", VStr "1.0")].

(** [{repository: rancher/foo, tag: 7}]: the tag is an integer. *)
Definition node_int_tag : yaml_map :=
  [(SStr "repository", VStr "rancher/foo"); (SStr "tag", Scalar (SInt 7))].

(** [{image: {repository: rancher/foo, tag: 7}}]: the values of a chart whose
    image has an integer tag. *)
Definition values_int_tag : yaml_map :=
  [(SStr "image", Mapping node_int_tag)].

(** [{images: [{repository: rancher/foo, tag: "1.0"}]}]: a mapping inside a
    sequence. *)
Definition values_with_sequence : yaml_map :=
  [(SStr "images", Sequence [Mapping node_plain])].

(** A mirror rule with one entry, that of the scenario
    [docker.io/foo:1.0 -> foo:1.0]. *)
Definition sample_Mirror (image : string) : string :=
  if String.eqb image "docker.io/foo:1.0" then "foo:1.0" else image.

(** Versions as numbers: the four versions the samples name. *)
Definition sample_NewVersion (v : string) : result nat :=
  if String.eqb v "2.5.0" then Ok 250
  else if String.eqb v "2.6.0" then Ok 260
  else if String.eqb v "2.6.1" then Ok 261
  else if String.eqb v "2.6.3" then Ok 263
  else Err (LibError "Invalid Semantic Version").

Definition sample_GreaterThan (a b : nat) : bool := (b <? a)%nat.
Definition sample_LessThan (a b : nat) : bool := (a <? b)%nat.
Definition sample_Equal (a b : nat) : bool := (a =? b)%nat.

(** A file system with the questions of two versions of the chart [foo]:
    v1 declares the range 2.5.0 - 2.6.0, v2 the minimum 2.6.1, and v3 has a
    questions file that does not parse; and with the values of the chart
    [foo-crd] of the repository [charts]. *)
Definition sample_ReadFile (path : string) : result string :=
  if String.eqb path "foo/v1/questions.yaml" then Ok "v1-questions"
  else if String.eqb path "foo/v2/questions.yml" then Ok "v2-questions"
  else if String.eqb path "foo/v3/questions.yaml" then Ok "v3-questions"
  else if String.eqb path "charts/foo-crd/values.yaml" then Ok "crd-values"
  else Err (LibError "no such file or directory").

Definition sample_yaml_Unmarshal (data : string) : result yaml_map :=
  if String.eqb data "v1-questions" then
    Ok [(SStr "rancher_min_version", VStr "2.5.0");
        (SStr "rancher_max_version", VStr "2.6.0")]
  else if String.eqb data "v2-questions" then
    Ok [(SStr "rancher_min_version", VStr "2.6.1")]
  else if String.eqb data "crd-values" then
    Ok [(SStr "image", Mapping [(SStr "repository", VStr "rancher/foo-crd");
                                (SStr "tag", VStr "1.0")])]
  else Err (LibError "yaml: unmarshal errors").

Definition sample_Base (path : string) : string :=
  default path (last (Split path "/")).

Definition sample_EqualFold (a b : string) : bool := String.eqb (ToLower a) (ToLower b).

Definition sample_v1 : ChartVersion :=
  {| Name := "foo"; Version := "v1"; Dir := "foo/v1";
     LocalFiles := ["foo/v1/Chart.yaml"; "foo/v1/questions.yaml"; "foo/v1/values.yaml"] |}.

Definition sample_v2 : ChartVersion :=
  {| Name := "foo"; Version := "v2"; Dir := "foo/v2";
     LocalFiles := ["foo/v2/Chart.yaml"; "foo/v2/questions.yml"; "foo/v2/values.yaml"] |}.

Definition sample_v3 : ChartVersion :=
  {| Name := "foo"; Version := "v3"; Dir := "foo/v3";
     LocalFiles := ["foo/v3/questions.yaml"] |}.

(** A filter that fails on v3, takes v2 and leaves v1 out. *)
Definition sample_rc : ResolveCharts :=
  {| getChartVersionsFromIndex := may_ret (Ok [sample_v3; sample_v2; sample_v1]);
     filterFunc := λ v,
       if String.eqb (Version v) "v3"
       then (Err (Errorf "No questions file found in %s" ["foo/v3"]), [])
       else (Ok (String.eqb (Version v) "v2"), []);
     pickImagesFromAllValues := λ imagesSet _, Ok imagesSet |}.

Definition sample_show (e : error) : string :=
  match e with
  | LibError msg => msg
  | Errorf format _ => format
  | Wrapf _ format _ => format
  end.

(** The repository [charts], two charts side by side with no directory per
    version:
<<
    charts/foo/Chart.yaml
    charts/foo-crd/Chart.yaml
    charts/foo-crd/values.yaml     image: {repository: rancher/foo-crd, tag: "1.0"}
>>
    No other repository can be read. *)
Definition sample_chart_foo : ChartVersion :=
  {| Name := "foo"; Version := "1.0"; Dir := "foo";
     LocalFiles := ["charts/foo/Chart.yaml"] |}.

Definition sample_chart_foo_crd : ChartVersion :=
  {| Name := "foo-crd"; Version := "1.0"; Dir := "foo-crd";
     LocalFiles := ["charts/foo-crd/Chart.yaml"; "charts/foo-crd/values.yaml"] |}.

Definition sample_index : gmap string ChartVersions :=
  {[ "foo" := [sample_chart_foo]; "foo-crd" := [sample_chart_foo_crd] ]}.

Definition sample_LoadIndex (path : string) : result (gmap string ChartVersions) :=
  if String.eqb path "charts" then Ok sample_index else Err (LibError "no index").

Definition sample_Rel (basePath path : string) : result string :=
  if HasPrefix path (basePath +:+ "/") then
    Ok (substring (S (String.length basePath))
          (String.length path - S (String.length basePath)) path)
  else Err (LibError "Rel: can't make path relative").

Definition sample_Walk (root : string) : list walk_entry :=
  if String.eqb root "charts" then
    (λ '(path, name), {| we_path := path; we_name := name; we_err := None |})
      <$> [("charts", "charts"); ("charts/foo", "foo");
           ("charts/foo/Chart.yaml", "Chart.yaml");
           ("charts/foo-crd", "foo-crd");
           ("charts/foo-crd/Chart.yaml", "Chart.yaml");
           ("charts/foo-crd/values.yaml", "values.yaml")]
  else [].
Definition sample_ToObj (col : collection unit) : result (list (string * obj_value)) :=
  Ok [].

(** The accumulator of the scenario, and one where two names collapse. *)
Definition sample_mirrored : ImagesSet :=
  {[ "docker.io/foo:1.0" := {[ "chartA" := true ]} ]}.

Definition sample_collapsing : ImagesSet :=
  {[ "docker.io/foo:1.0" := {[ "chartA" := true ]};
     "foo:1.0" := {[ "chartB" := true ]} ]}.

Section Package.

(** *** What the package takes from outside *)

(** fmt: the text of [%v] for an operand that is no string. *)
Variable Sprint_v : value → string.

(** Masterminds/semver/v3, as resolve.go uses it. *)
Variable semver : Type.
Variable NewVersion : string → result semver.
Variables GreaterThan LessThan Equal : semver → semver → bool.

(** Masterminds/semver (v1), as charts.go uses it. *)
Variable semver1 : Type.
Variable NewVersion1 : string → result semver1.
Variable SetPrerelease : semver1 → string → result semver1.
Variable constraints : Type.
Variable NewConstraint : string → result constraints.
Variable constraint_check : constraints → semver1 → bool.

(** Files and YAML. [decodeYAML_Questions] is [decodeYAML] with a [Questions]
    target: it gets the target as it is and returns it as it leaves it. *)
Variable ReadFile : string → result string.
Variable yaml_Unmarshal : string → result yaml_map.
Variable decodeYAML_Questions : string → Questions → Questions * option error.
Variable filepath_Base : string → string.
Variable filepath_Join : string → string → string.
Variable filepath_Rel : string → string → result string.
Variable filepath_Walk : string → list walk_entry.
Variable EqualFold : string → string → bool.
Variable isValuesFile : string → bool.

(** catalog/helm: the entries of the index that [LoadIndex] reads at a path,
    a map from the name of a chart to its versions, newest first. *)
Variable LoadIndex : string → result (gmap string ChartVersions).

(** settings.ShellImage, rke's [img.Mirror], the system images of rke and
    norman's [convert.ToObj]. *)
Variable ShellImage : string.
Variable Mirror : string → string.
Variable RKESystemImages : Type.
Variable ToObj : collection RKESystemImages → result (list (string * obj_value)).

(** *** resolve.go: the extractor *)

(** [fmt.Sprintf("%v", tag)] *)
Definition fmt_v (tag : value) : string :=
  match tag with
  | VStr s => s
  | other => Sprint_v other
  end.

Definition os_is_windows (os : value) : bool :=
  match os with VStr s => String.eqb s "windows" | _ => false end.

(** resolve.go, [generateImages]. *)
Definition generateImages (chartNameAndVersion : string) (inputMap : yaml_map)
    (output : ImagesSet) (osType : OSType) : ImagesSet :=
  match as_string (map_index inputMap "repository") with
  | None => output
  | Some repo =>
      match map_get inputMap "tag" with
      | None => output
      | Some tag =>
          let selected :=
            if os_is_windows (map_index inputMap "os")
            then bool_decide (osType = Windows)
            else bool_decide (osType = Linux) in
          if selected
          then addSourceToImage output (repo +:+ ":" +:+ fmt_v tag) [chartNameAndVersion]
          else output
      end
  end.

(** *** resolve.go: the selector *)

(** resolve.go, [fetchVersionQuestions]: the last questions file among the
    local files wins; with none the map is nil, which reads as empty. *)
Fixpoint fetchVersionQuestions_from (files : list string) (questions : yaml_map)
    : result yaml_map :=
  match files with
  | [] => Ok questions
  | path :: rest =>
      let basename := filepath_Base path in
      if EqualFold basename "questions.yaml" || EqualFold basename "questions.yml"
      then data ← ReadFile path;
           parsed ← yaml_Unmarshal data;
           fetchVersionQuestions_from rest parsed
      else fetchVersionQuestions_from rest questions
  end.

Definition fetchVersionQuestions (version : ChartVersion) : result yaml_map :=
  fetchVersionQuestions_from (LocalFiles version) [].

(** Whether the loop body of [getVersionsInRancherMinMaxRange] appends the
    version: an error ends the whole call. *)
Definition version_in_range (rancherVersion : string) (v : ChartVersion)
    : result bool :=
  questions ← fetchVersionQuestions v;
  let min := string_or_empty (map_index questions "rancher_min_version") in
  let max := string_or_empty (map_index questions "rancher_max_version") in
  if (0 <? String.length min)%nat then
    rancherSemVer ← NewVersion (TrimSpace rancherVersion);
    minSemVer ← NewVersion (TrimSpace min);
    if (0 <? String.length max)%nat then
      maxSemVer ← NewVersion (TrimSpace max);
      Ok ((GreaterThan rancherSemVer minSemVer || Equal rancherSemVer minSemVer)
          && (LessThan rancherSemVer maxSemVer || Equal rancherSemVer maxSemVer))
    else
      Ok (GreaterThan rancherSemVer minSemVer || Equal rancherSemVer minSemVer)
  else Ok false.

Fixpoint versions_in_range_from (rancherVersion : string)
    (versions chartVersions : ChartVersions) : result ChartVersions :=
  match versions with
  | [] => Ok chartVersions
  | v :: rest =>
      keep ← version_in_range rancherVersion v;
      versions_in_range_from rancherVersion rest
        (if keep : bool then chartVersions ++ [v] else chartVersions)
  end.

(** resolve.go, [getVersionsInRancherMinMaxRange]. [versions[0]] panics on an
    empty list. *)
Definition getVersionsInRancherMinMaxRange (rancherVersion : string)
    (versions : ChartVersions) : result ChartVersions :=
  chartVersions ← versions_in_range_from rancherVersion versions [];
  if (length chartVersions <=? 0)%nat then
    match versions with
    | latest :: _ => Ok (chartVersions ++ [latest])
    | [] => Panic
    end
  else Ok chartVersions.

(** The loop of [getChartVersions] over the entries of the index, in the
    order in which it takes them. *)
Fixpoint getChartVersions_from (path rancherVersion : string)
    (entries : list (string * ChartVersions)) (chartVersions : ChartVersions)
    : result ChartVersions :=
  match entries with
  | [] => Ok chartVersions
  | (_, versions) :: rest =>
      if (0 <? length versions)%nat then
        if Contains path SystemChartsRepoDir then
          versionsInRange ← getVersionsInRancherMinMaxRange rancherVersion versions;
          getChartVersions_from path rancherVersion rest (chartVersions ++ versionsInRange)
        else
          match versions with
          | latestVersion :: _ =>
              getChartVersions_from path rancherVersion rest (chartVersions ++ [latestVersion])
          | [] => Panic
          end
      else getChartVersions_from path rancherVersion rest chartVersions
  end.

(** resolve.go, [getChartVersions]: the loop takes the entries of the index
    in some order. *)
Definition getChartVersions (path rancherVersion : string) : may (result ChartVersions) :=
  do index <- may_ret (LoadIndex path);
  λ out, ∃ entries, entries ≡ₚ map_to_list index
                    ∧ out = getChartVersions_from path rancherVersion entries [].

(** *** resolve.go: images of the charts under a path *)

(** The chart a values file belongs to: the first version whose directory is
    a prefix of the file's relative path. *)
Definition chart_of_path (chartVersions : ChartVersions) (relPath : string)
    : option string :=
  match list_find (λ v, HasPrefix relPath (Dir v) = true) chartVersions with
  | Some (_, v) => Some (Name v +:+ ":" +:+ Version v)
  | None => None
  end.

(** resolve.go, [pickImagesFromValuesYAML]. Its errors come before it
    touches the accumulator. *)
Definition pickImagesFromValuesYAML (imagesSet : ImagesSet)
    (chartVersions : ChartVersions) (basePath path info_Name : string)
    (osType : OSType) : result ImagesSet :=
  if negb (String.eqb info_Name "values.yaml") then Ok imagesSet
  else
    relPath ← filepath_Rel basePath path;
    match chart_of_path chartVersions relPath with
    | None => Ok imagesSet
    | Some chartNameAndVersion =>
        data ← ReadFile path;
        valuesYaml ← yaml_Unmarshal data;
        Ok (walkthroughMap
              (λ inputMap output,
                 generateImages chartNameAndVersion inputMap output osType)
              valuesYaml imagesSet)
    end.

(** The calls [filepath.Walk] makes, up to the first that returns an error. *)
Fixpoint walk_values (chartVersions : ChartVersions) (basePath : string)
    (osType : OSType) (entries : list walk_entry) (imagesSet : ImagesSet)
    : result ImagesSet :=
  match entries with
  | [] => Ok imagesSet
  | entry :: rest =>
      match we_err entry with
      | Some err => Err err
      | None =>
          imagesSet' ← pickImagesFromValuesYAML imagesSet chartVersions basePath
                         (we_path entry) (we_name entry) osType;
          walk_values chartVersions basePath osType rest imagesSet'
      end
  end.

(** resolve.go, [fetchImagesFromCharts]. *)
Definition fetchImagesFromCharts (path rancherVersion : string) (osType : OSType)
    (imagesSet : ImagesSet) : may (result ImagesSet) :=
  do chartVersions <- may_wrap (getChartVersions path rancherVersion)
                        "failed to get chart and version from %q" [path];
  may_ret (wrap (walk_values chartVersions path osType (filepath_Walk path) imagesSet)
             "failed to pick images from values.yaml" []).

(** *** resolve.go: system images, required images *)

(** resolve.go, [flatImagesFromCollections]. *)
Fixpoint flatImagesFromCollections (cols : list (collection RKESystemImages))
    (images : list string)
    : result (list string) :=
  match cols with
  | [] => Ok images
  | col :: rest =>
      colObj ← ToObj col;
      flatImagesFromCollections rest (images ++ fetchImagesFromCollection colObj)
  end.

(** resolve.go, [fetchImagesFromSystem]. *)
Definition fetchImagesFromSystem (rkeSystemImages : gmap string RKESystemImages)
    (osType : OSType) (imagesSet : ImagesSet) : result ImagesSet :=
  let collectionImagesList :=
    match osType with
    | Linux => [RKECollection rkeSystemImages; ToolsSystemImages]
    | _ => [RKECollection rkeSystemImages]
    end in
  images ← flatImagesFromCollections collectionImagesList [];
  Ok (foldl (λ acc image, addSourceToImage acc image ["system"]) imagesSet images).

(** resolve.go, [setRequirementImages]. *)
Definition setRequirementImages (osType : OSType) (imagesSet : ImagesSet) : ImagesSet :=
  match osType with
  | Linux =>
      addSourceToImage (addSourceToImage imagesSet ShellImage ["core"]) "busybox" ["core"]
  | _ => imagesSet
  end.

(** *** resolve.go: the mirror pass *)

(** The inner loop of [convertMirroredImages], over the entries of
    [imagesSet[image]] in the order its [range] produces them. *)
Definition migrate_sources (entries : list (string * bool)) (convertedImage : string)
    (imagesSet : ImagesSet) : ImagesSet :=
  foldl (λ acc sv, if sv.2 : bool then addSourceToImage acc convertedImage [sv.1] else acc)
    imagesSet entries.

(** The body of the outer loop for the key [image]. *)
Definition convert_body (image : string) (imagesSet : ImagesSet) : ImagesSet :=
  let convertedImage := Mirror image in
  if String.eqb image convertedImage then imagesSet
  else delete image
         (migrate_sources (map_to_list (default ∅ (imagesSet !! image)))
            convertedImage imagesSet).

(** resolve.go, [convertMirroredImages]: the loop may leave the accumulator
    as [converted]. *)
Definition convertMirroredImages (imagesSet converted : ImagesSet) : Prop :=
  range_run convert_body (range_start imagesSet) converted.

(** The pass that takes the keys in the order of [order], for running it. *)
Definition convertMirroredImages_in (order : list string) (imagesSet : ImagesSet)
    : ImagesSet :=
  foldl (λ acc image, convert_body image acc) imagesSet order.

(** *** resolve.go: [GetImages] *)

(** [GetImages] up to the mirror pass: the three fetch phases and the
    images that are set without fetching. *)
Definition collectImages (systemChartPath chartPath rancherVersion : string)
    (k3sUpgradeImages imagesFromArgs : list string)
    (rkeSystemImages : gmap string RKESystemImages) (osType : OSType)
    : may (result ImagesSet) :=
  let imagesSet : ImagesSet := ∅ in
  do imagesSet <-
    (if negb (String.eqb systemChartPath "")
     then may_wrap (fetchImagesFromCharts systemChartPath rancherVersion osType imagesSet)
            "failed to fetch images from system charts" []
     else may_ret (Ok imagesSet));
  do imagesSet <-
    (if negb (String.eqb chartPath "")
     then may_wrap (fetchImagesFromCharts chartPath rancherVersion osType imagesSet)
            "failed to fetch images from charts" []
     else may_ret (Ok imagesSet));
  do imagesSet <-
    may_ret (if (0 <? size rkeSystemImages)%nat
             then wrap (fetchImagesFromSystem rkeSystemImages osType imagesSet)
                    "failed to fetch images from system images" []
             else Ok imagesSet);
  let imagesSet := setRequirementImages osType imagesSet in
  let imagesSet := setImages "rancher" imagesFromArgs imagesSet in
  let imagesSet := setImages "k3sUpgrade" k3sUpgradeImages imagesSet in
  may_ret (Ok imagesSet).

(** [GetImages] from the mirror pass on: the pass and the two lists. *)
Definition finishImages (imagesSet : ImagesSet)
    : may (result (list string * list string)) :=
  may_bind (convertMirroredImages imagesSet) (λ converted,
  may_bind (generateImageAndSourceLists_returns converted) (λ lists,
  may_ret (Ok lists))).

(** resolve.go, [GetImages]: what a call may return, the two lists with a
    nil error, or an error. *)
Definition GetImages (systemChartPath chartPath rancherVersion : string)
    (k3sUpgradeImages imagesFromArgs : list string)
    (rkeSystemImages : gmap string RKESystemImages) (osType : OSType)
    : may (result (list string * list string)) :=
  do imagesSet <- collectImages systemChartPath chartPath rancherVersion
                    k3sUpgradeImages imagesFromArgs rkeSystemImages osType;
  finishImages imagesSet.

(** *** charts.go: the filter of the system charts *)

(** charts.go, [IsRancherVersionInRange]. *)
Definition IsRancherVersionInRange (rancherVersion constraintStr : string)
    : result bool :=
  if String.eqb constraintStr "" then
    Err (Errorf ("Invalid constraint string: " +:+ double_quote +:+ "%s" +:+ double_quote)
           [constraintStr])
  else
    rancherSemVer ← NewVersion1 rancherVersion;
    rancherSemVerNoPreRelease ← SetPrerelease rancherSemVer "";
    constraint ← NewConstraint constraintStr;
    Ok (constraint_check constraint rancherSemVerNoPreRelease).

(** charts.go, [decodeQuestions]. *)
Definition decodeQuestions (versionDir : string) : logged (result Questions) :=
  let zero := {| RancherMinVersion := ""; RancherMaxVersion := "" |} in
  let '(questions, err) :=
    decodeYAML_Questions (filepath_Join versionDir "questions.yaml") zero in
  if bool_decide (err ≠ None) || Questions_is_zero questions then
    let '(questions, err) :=
      decodeYAML_Questions (filepath_Join versionDir "questions.yml") questions in
    if bool_decide (err ≠ None)
    then (Err (Errorf "No questions file found in %s" [versionDir]), [])
    else if Questions_is_zero questions
    then (Ok zero, ["questions file in " +:+ versionDir +:+ " is empty"])
    else (Ok questions, [])
  else (Ok questions, []).

(** charts.go, [SystemCharts.filterFunc]. *)
Definition SystemCharts_filterFunc (sc : SystemCharts) (chartVersion : ChartVersion)
    : logged (result bool) :=
  let '(r, lines) := decodeQuestions (filepath_Join (sc_repoPath sc) (Dir chartVersion)) in
  match r with
  | Ok questions =>
      (IsRancherVersionInRange (sc_rancherVersion sc)
         (minMaxToConstraintStr (RancherMinVersion questions) (RancherMaxVersion questions)),
       lines)
  | Err e => (Err e, lines)
  | Panic => (Panic, lines)
  end.

(** charts.go, [SystemCharts.getChartVersionsFromIndex]: the versions of all
    entries, the entries in the order the loop takes them. *)
Definition SystemCharts_getChartVersionsFromIndex (sc : SystemCharts)
    : may (result ChartVersions) :=
  if String.eqb (sc_repoPath sc) "" then
    may_ret (Err (Errorf "invalid path to system-charts repository" []))
  else
    do virtualIndex <- may_ret (LoadIndex (sc_repoPath sc));
    λ out, ∃ entries, entries ≡ₚ map_to_list virtualIndex
                      ∧ out = Ok (concat (snd <$> entries)).

Fixpoint pick_from_files (sc : SystemCharts) (version : ChartVersion)
    (files : list string) (imagesSet : ImagesSet) : result ImagesSet :=
  match files with
  | [] => Ok imagesSet
  | file :: rest =>
      if negb (isValuesFile file) then pick_from_files sc version rest imagesSet
      else
        values ← ReadFile file ≫= yaml_Unmarshal;
        imagesSet' ← pickImagesFromValuesMap imagesSet values
                       (Name version +:+ ":" +:+ Version version) (sc_osType sc);
        pick_from_files sc version rest imagesSet'
  end.

(** charts.go, [SystemCharts.pickImagesFromAllValues]. *)
Fixpoint SystemCharts_pickImagesFromAllValues (sc : SystemCharts)
    (imagesSet : ImagesSet) (chartVersions : ChartVersions) : result ImagesSet :=
  match chartVersions with
  | [] => Ok imagesSet
  | version :: rest =>
      imagesSet' ← pick_from_files sc version (LocalFiles version) imagesSet;
      SystemCharts_pickImagesFromAllValues sc imagesSet' rest
  end.

Definition SystemCharts_ResolveCharts (sc : SystemCharts) : ResolveCharts :=
  {| getChartVersionsFromIndex := SystemCharts_getChartVersionsFromIndex sc;
     filterFunc := SystemCharts_filterFunc sc;
     pickImagesFromAllValues := SystemCharts_pickImagesFromAllValues sc |}.

(** *** The two readings of the [os] field *)

Definition os_name (osType : OSType) : string :=
  match osType with Linux => "linux" | Windows => "windows" end.

(** charts.go: a comma-separated list, each token trimmed and lower-cased;
    the image is for the systems the list names, and for Linux when the
    field is no string. *)
Definition os_selected_charts (inputMap : yaml_map) (osType : OSType) : Prop :=
  match as_string (map_index inputMap "os") with
  | Some osList =>
      Exists (λ token, TrimSpace (ToLower token) = os_name osType) (Split osList ",")
  | None => osType = Linux
  end.

(** resolve.go: the image is for Windows when the field is the string
    [windows], and for Linux in every other case. *)
Definition os_selected_resolve (inputMap : yaml_map) (osType : OSType) : Prop :=
  if os_is_windows (map_index inputMap "os") then osType = Windows else osType = Linux.


(** The call returned true and a nil error. *)
Definition returned_true (r : result bool) : Prop := r = Ok true.

#[global] Instance returned_true_dec r : Decision (returned_true r).
Proof.
  unfold returned_true. destruct r as [[] | e |];
    [by left | right | right | right]; congruence.
Defined.


(** *** What the output lines are made of *)

(** The sources of an image, sorted. *)
Definition sorted_sources (imagesSet : ImagesSet) (image : string) : list string :=
  sort_strings (elements (true_sources (default ∅ (imagesSet !! image)))).

(** The line of an image in the second output list. *)
Definition image_line (imagesSet : ImagesSet) (image : string) : string :=
  image +:+ " " +:+ Join (sorted_sources imagesSet image) ",".

(** A phase that emits (image, source) pairs one after the other. *)
Definition emit_all (emissions : list (string * string)) (imagesSet : ImagesSet)
    : ImagesSet :=
  foldl (λ acc e, addSourceToImage acc e.1 [e.2]) imagesSet emissions.


(** *** The mirror pass: what it is measured against *)

(** The true sources of the entries of an inner map. *)
Definition true_entries (entries : list (string * bool)) : list string :=
  (filter (λ sv, sv.2 = true) entries).*1.

(** The keys that the mirror rule rewrites. *)
Definition rewritten_keys (imagesSet : ImagesSet) : gset string :=
  filter (λ image, Mirror image ≠ image) (dom imagesSet).

(** The pass that takes the rewritten keys in the order of [elements]. *)
Definition mirror_normal_form (imagesSet : ImagesSet) : ImagesSet :=
  foldr convert_body imagesSet (elements (rewritten_keys imagesSet)).

(** What holds of a loop state of the pass: a key that the rule rewrites is
    still to be produced, and the keys to be produced are in the map. *)
Definition range_inv (st : range_state (gmap string bool)) : Prop :=
  (∀ k, k ∈ dom (rs_map st) → Mirror k ≠ k → k ∈ rs_pending st)
  ∧ rs_pending st ∪ rs_fresh st ⊆ dom (rs_map st).

(** The measure that every step of the pass lowers when the rule is
    idempotent. *)
Definition range_measure (st : range_state (gmap string bool)) : nat :=
  size (rs_pending st ∪ rs_fresh st)
  + size (filter (λ image, Mirror image ≠ image) (rs_pending st ∪ rs_fresh st)).


(** The inner loop as one call: nothing when no source is true. *)
Definition add_if_any (convertedImage : string) (sources : list string)
    (imagesSet : ImagesSet) : ImagesSet :=
  if decide (sources = []) then imagesSet
  else addSourceToImage imagesSet convertedImage sources.

(** What a call returns when the phase that came back with [r] failed: the
    error of the phase under the message of [errors.Wrap]. *)
Definition fails_with {A B : Type} (r : result A) (format : string)
    (out : result B) : Prop :=
  match r with
  | Ok _ => False
  | Err cause => out = Err (Wrapf cause format [])
  | Panic => out = Panic
  end.

(** * Properties *)

(** ** Trees and walkers *)

Lemma value_children_ind (P : value → Prop) :
  (∀ data, Forall P (children data) → P data) → ∀ data, P data.
Proof.
  intros step. fix IH 1. intros data. apply step.
  destruct data as [s | m | l]; simpl.
  - constructor.
  - induction m as [| [k v] m IHm]; simpl; constructor; [apply IH | exact IHm].
  - induction l as [| v l IHl]; constructor; [apply IH | exact IHl].
Qed.

Lemma walkMap_unfold {S : Type} (f : yaml_map → S → S) data st :
  walkMap f data st =
  foldl (λ st v, walkMap f v st) (foldl (λ st m, f m st) st (root_nodes data))
    (children data).
Proof.
  destruct data as [s | m | l]; simpl; try reflexivity.
  generalize (f m st). induction m as [| [k v] m IH]; simpl; auto.
Qed.

Lemma mapping_nodes_unfold data :
  mapping_nodes data = root_nodes data ++ concat (mapping_nodes <$> children data).
Proof.
  destruct data as [s | m | l]; simpl; try reflexivity.
  by rewrite <- list_fmap_compose.
Qed.

Lemma mapping_paths_unfold data :
  mapping_paths data =
  ((λ _, []) <$> root_nodes data) ++ child_paths 0 (mapping_paths <$> children data).
Proof.
  destruct data as [s | m | l]; simpl; try reflexivity.
  by rewrite <- list_fmap_compose.
Qed.

Lemma walkthrough_unfold {S : Type} (f : yaml_map → S → S) m st :
  walkthrough f (Mapping m) st =
  foldl (λ st v, walkthrough f v st) (f m st) (snd <$> m).
Proof.
  simpl. generalize (f m st). induction m as [| [k v] m IH]; simpl; auto.
Qed.

Lemma foldl_children_nodes {S : Type} (walk : value → S → S)
    (nodes : value → list yaml_map) (f : yaml_map → S → S) vs :
  Forall (λ v, ∀ st, walk v st = foldl (λ st m, f m st) st (nodes v)) vs →
  ∀ st, foldl (λ st v, walk v st) st vs
        = foldl (λ st m, f m st) st (concat (nodes <$> vs)).
Proof.
  induction 1 as [| v vs Hv _ IH]; intros st; simpl; [done |].
  by rewrite foldl_app, <- Hv, IH.
Qed.

(** A walk is the visitor folded over the mapping nodes in pre-order. *)
Lemma walkMap_foldl {S : Type} (f : yaml_map → S → S) data :
  ∀ st, walkMap f data st = foldl (λ st m, f m st) st (mapping_nodes data).
Proof.
  induction data as [data IH] using value_children_ind. intros st.
  rewrite walkMap_unfold, mapping_nodes_unfold, foldl_app.
  by apply foldl_children_nodes.
Qed.

Lemma walkthrough_foldl {S : Type} (f : yaml_map → S → S) data :
  ∀ st, walkthrough f data st = foldl (λ st m, f m st) st (through_nodes data).
Proof.
  induction data as [data IH] using value_children_ind. intros st.
  destruct data as [s | m | l]; try reflexivity.
  rewrite walkthrough_unfold. simpl through_nodes. simpl foldl.
  erewrite (foldl_children_nodes _ through_nodes); [| exact IH].
  by rewrite <- list_fmap_compose.
Qed.

Lemma foldl_record_visit seen nodes :
  foldl (λ st m, record_visit m st) seen nodes = seen ++ nodes.
Proof.
  revert seen. induction nodes as [| m nodes IH]; intros seen; simpl.
  - by rewrite app_nil_r.
  - rewrite IH. unfold record_visit. by rewrite <- app_assoc.
Qed.

Lemma visits_nodes data : visits data = mapping_nodes data.
Proof. unfold visits. by rewrite walkMap_foldl, foldl_record_visit. Qed.

Lemma visits_through_nodes m : visits_through m = through_nodes (Mapping m).
Proof.
  unfold visits_through, walkthroughMap.
  by rewrite walkthrough_foldl, foldl_record_visit.
Qed.

Lemma elem_of_child_paths i pss p :
  p ∈ child_paths i pss ↔
  ∃ j ps p', pss !! j = Some ps ∧ p' ∈ ps ∧ p = (i + j) :: p'.
Proof.
  revert i. induction pss as [| ps pss IH]; intros i; simpl.
  - split; [by intros ?%elem_of_nil | by intros (j & ? & ? & ? & _)].
  - rewrite elem_of_app, list_elem_of_fmap, IH. split.
    + intros [(p' & -> & Hp') | (j & qs & p' & Hj & Hp' & ->)].
      * exists 0, ps, p'. by rewrite Nat.add_0_r.
      * exists (S j), qs, p'. split_and!; [done | done | f_equal; lia].
    + intros ([| j] & qs & p' & Hj & Hp' & ->); simpl in Hj.
      * left. exists p'. injection Hj as <-. by rewrite Nat.add_0_r.
      * right. exists j, qs, p'. split_and!; [done | done | f_equal; lia].
Qed.

Lemma NoDup_child_paths i pss :
  Forall NoDup pss → NoDup (child_paths i pss).
Proof.
  intros Hpss. revert i. induction Hpss as [| ps pss Hps _ IH]; intros i; simpl.
  - constructor.
  - apply NoDup_app. split_and!.
    + by apply (NoDup_fmap_2 _).
    + intros p (p' & -> & _)%list_elem_of_fmap (j & qs & q & _ & _ & [=])%elem_of_child_paths.
      lia.
    + apply IH.
Qed.

Lemma Forall2_child_paths (P : path → yaml_map → Prop)
    (paths : value → list path) (nodes : value → list yaml_map) vs i :
  (∀ j v, vs !! j = Some v →
          Forall2 (λ p m, P ((i + j) :: p) m) (paths v) (nodes v)) →
  Forall2 P (child_paths i (paths <$> vs)) (concat (nodes <$> vs)).
Proof.
  revert i. induction vs as [| v vs IH]; intros i Hvs; simpl.
  - constructor.
  - apply Forall2_app.
    + apply Forall2_fmap_l. specialize (Hvs 0 v eq_refl).
      by rewrite Nat.add_0_r in Hvs.
    + apply IH. intros j w Hj. specialize (Hvs (S j) w Hj).
      by replace (S i + j) with (i + S j) by lia.
Qed.

(** The visitor calls of [walkMap] are, one for one and in order, the
    positions of the tree that hold a mapping. *)
Lemma mapping_paths_nodes data :
  Forall2 (λ p m, subtree data p = Some (Mapping m))
    (mapping_paths data) (mapping_nodes data).
Proof.
  induction data as [data IH] using value_children_ind.
  rewrite mapping_paths_unfold, mapping_nodes_unfold. apply Forall2_app.
  - destruct data; simpl; repeat constructor.
  - apply Forall2_child_paths. intros j v Hj. simpl. rewrite Hj. simpl.
    eapply Forall_lookup_1 in IH; [| exact Hj]. exact IH.
Qed.

Lemma NoDup_mapping_paths data : NoDup (mapping_paths data).
Proof.
  induction data as [data IH] using value_children_ind.
  rewrite mapping_paths_unfold. apply NoDup_app. split_and!.
  - destruct data; simpl; repeat constructor. by intros ?%elem_of_nil.
  - intros p Hroot (j & ps & p' & _ & _ & ->)%elem_of_child_paths.
    apply list_elem_of_fmap in Hroot as (? & [=] & _).
  - apply NoDup_child_paths. by apply Forall_fmap.
Qed.

Lemma elem_of_mapping_paths data p :
  p ∈ mapping_paths data ↔ ∃ m, subtree data p = Some (Mapping m).
Proof.
  revert p. induction data as [data IH] using value_children_ind. intros p.
  rewrite mapping_paths_unfold, elem_of_app, elem_of_child_paths. split.
  - intros [Hroot | (j & ps & p' & Hj & Hp' & ->)].
    + apply list_elem_of_fmap in Hroot as (m & -> & Hm).
      destruct data; simpl in Hm; try by apply elem_of_nil in Hm.
      apply list_elem_of_singleton in Hm as ->. by eexists.
    + apply list_lookup_fmap_Some in Hj as (v & -> & Hv). simpl. rewrite Hv. simpl.
      eapply Forall_lookup_1 in IH; [| exact Hv]. by apply IH.
  - intros [m Hm]. destruct p as [| j p']; simpl in Hm.
    + left. injection Hm as ->. simpl. apply list_elem_of_singleton. done.
    + right. destruct (children data !! j) as [v |] eqn:Hv; [| done]. simpl in Hm.
      exists j, (mapping_paths v), p'. split_and!; [| | done].
      * by rewrite list_lookup_fmap, Hv.
      * eapply Forall_lookup_1 in IH; [| exact Hv]. apply IH. by eexists.
Qed.



Lemma through_paths_unfold m :
  through_paths (Mapping m) = [] :: child_paths 0 (through_paths <$> (snd <$> m)).
Proof. simpl. by rewrite <- list_fmap_compose. Qed.

Lemma through_nodes_unfold m :
  through_nodes (Mapping m) = m :: concat (through_nodes <$> (snd <$> m)).
Proof. simpl. by rewrite <- list_fmap_compose. Qed.

Lemma subtree_via_maps_cons m j p v :
  (snd <$> m) !! j = Some v →
  subtree_via_maps (Mapping m) (j :: p) = subtree_via_maps v p.
Proof.
  intros (kv & -> & Hkv)%list_lookup_fmap_Some. simpl. by rewrite Hkv.
Qed.

Lemma through_paths_nodes data :
  Forall2 (λ p m, subtree_via_maps data p = Some (Mapping m))
    (through_paths data) (through_nodes data).
Proof.
  induction data as [data IH] using value_children_ind.
  destruct data as [s | m0 | l]; [constructor | | constructor].
  rewrite through_paths_unfold, through_nodes_unfold. constructor; [done |].
  apply Forall2_child_paths. intros j v Hj.
  eapply Forall_lookup_1 in IH; [| exact Hj].
  eapply Forall2_impl; [exact IH |]. intros p m Hp. simpl plus.
  by rewrite (subtree_via_maps_cons _ _ _ v).
Qed.

Lemma NoDup_through_paths data : NoDup (through_paths data).
Proof.
  induction data as [data IH] using value_children_ind.
  destruct data as [s | m0 | l]; [constructor | | constructor].
  rewrite through_paths_unfold. constructor.
  - intros (j & ps & p' & _ & _ & [=])%elem_of_child_paths.
  - apply NoDup_child_paths. by apply Forall_fmap.
Qed.

Lemma elem_of_through_paths data p :
  p ∈ through_paths data ↔ ∃ m, subtree_via_maps data p = Some (Mapping m).
Proof.
  revert p. induction data as [data IH] using value_children_ind. intros p.
  destruct data as [s | m0 | l].
  - simpl. split; [by intros ?%elem_of_nil |]. intros [m Hm]. by destruct p.
  - rewrite through_paths_unfold, elem_of_cons, elem_of_child_paths. split.
    + intros [-> | (j & ps & p' & Hj & Hp' & ->)]; [by eexists |].
      apply list_lookup_fmap_Some in Hj as (v & -> & Hv).
      rewrite (subtree_via_maps_cons _ _ _ v Hv).
      eapply Forall_lookup_1 in IH; [| exact Hv]. by apply IH.
    + intros [m Hm]. destruct p as [| j p']; [by left |]. right.
      destruct ((snd <$> m0) !! j) as [v |] eqn:Hv.
      * rewrite (subtree_via_maps_cons _ _ _ v Hv) in Hm.
        exists j, (through_paths v), p'. split_and!; [| | done].
        -- by rewrite list_lookup_fmap, Hv.
        -- eapply Forall_lookup_1 in IH; [| exact Hv]. apply IH. by eexists.
      * simpl in Hm. rewrite list_lookup_fmap in Hv.
        destruct (m0 !! j); [done | done].
  - simpl. split; [by intros ?%elem_of_nil |]. intros [m Hm]. by destruct p.
Qed.

(** [walkthroughMap] (resolve.go) calls the visitor exactly once on each
    mapping that is reached from the root through mappings only, the root
    included, and on nothing else: a mapping below a sequence is not
    visited. *)
Theorem walkthroughMap_visits_mappings_below_mappings (inputMap : yaml_map) :
  NoDup (through_paths (Mapping inputMap))
  ∧ (∀ p, p ∈ through_paths (Mapping inputMap)
          ↔ ∃ m, subtree_via_maps (Mapping inputMap) p = Some (Mapping m))
  ∧ Forall2 (λ p m, subtree_via_maps (Mapping inputMap) p = Some (Mapping m))
      (through_paths (Mapping inputMap)) (visits_through inputMap)
  ∧ (∀ (S : Type) (walkFunc : yaml_map → S → S) (st : S),
       walkthroughMap walkFunc inputMap st
       = foldl (λ st m, walkFunc m st) st (visits_through inputMap))
  ∧ (∀ (S : Type) (walkFunc : yaml_map → S → S) (st : S) l,
       walkthrough walkFunc (Sequence l) st = st).
Proof.
  rewrite visits_through_nodes. split_and!.
  - apply NoDup_through_paths.
  - apply elem_of_through_paths.
  - apply through_paths_nodes.
  - intros S f st. apply walkthrough_foldl.
  - done.
Qed.


(** ** The accumulator *)

Lemma lookup_add_sources (inner : gmap string bool) sources s :
  foldl (λ m source, <[source := true]> m) inner sources !! s
  = if decide (s ∈ sources) then Some true else inner !! s.
Proof.
  revert inner. induction sources as [| x sources IH]; intros inner.
  - case_decide as Hin; [by apply elem_of_nil in Hin | done].
  - cbn [foldl]. rewrite IH. destruct (decide (s ∈ sources)) as [Hin | Hnin].
    + rewrite decide_True; [done | by right].
    + destruct (decide (s = x)) as [-> | Hne].
      * rewrite lookup_insert_eq, decide_True; [done | by left].
      * rewrite lookup_insert_ne by done. rewrite decide_False; [done |].
        by intros [-> | ?]%elem_of_cons.
Qed.

Lemma lookup_addSourceToImage (imagesSet : ImagesSet) image sources image' :
  addSourceToImage imagesSet image sources !! image'
  = if decide (image = image')
    then Some (foldl (λ m source, <[source := true]> m)
                 (default ∅ (imagesSet !! image)) sources)
    else imagesSet !! image'.
Proof.
  unfold addSourceToImage. destruct (decide (image = image')) as [-> | Hne].
  - by rewrite lookup_insert_eq.
  - by rewrite lookup_insert_ne.
Qed.

Lemma has_source_addSourceToImage (imagesSet : ImagesSet) image sources i s :
  has_source (addSourceToImage imagesSet image sources) i s
  ↔ (i = image ∧ s ∈ sources) ∨ has_source imagesSet i s.
Proof.
  unfold has_source. rewrite lookup_addSourceToImage.
  destruct (decide (image = i)) as [-> | Hne].
  - split.
    + intros (inner & [= <-] & Hs). rewrite lookup_add_sources in Hs.
      destruct (decide (s ∈ sources)); [by left |]. right.
      destruct (imagesSet !! i) as [inner |]; simpl in Hs; [by eexists | done].
    + intros [[_ Hs] | (inner & Hi & Hs)]; eexists; (split; [done |]);
        rewrite lookup_add_sources; destruct (decide (s ∈ sources)); try done.
      by rewrite Hi.
  - split; [by right | by intros [[-> _] | ?]].
Qed.

Lemma dom_addSourceToImage (imagesSet : ImagesSet) image sources :
  dom (addSourceToImage imagesSet image sources) = {[image]} ∪ dom imagesSet.
Proof. unfold addSourceToImage. by rewrite dom_insert_L. Qed.

(** ** The extractors *)

Lemma pick_by_os_list_spec tokens osType imageName chart (imagesSet : ImagesSet) :
  pick_by_os_list tokens osType imageName chart imagesSet
  = if decide (Exists (λ token, TrimSpace (ToLower token) = os_name osType) tokens)
    then addSourceToImage imagesSet imageName [chart]
    else imagesSet.
Proof.
  induction tokens as [| os rest IH]; cbn [pick_by_os_list].
  - case_decide as Hex; [by apply Exists_nil in Hex | done].
  - destruct (String.eqb_spec (TrimSpace (ToLower os)) "windows") as [Hw | Hw].
    + destruct osType.
      * rewrite IH. apply decide_ext. rewrite Exists_cons, Hw. cbn. naive_solver.
      * rewrite decide_True; [done | by left].
    + destruct (String.eqb_spec (TrimSpace (ToLower os)) "linux") as [Hl | Hl].
      * destruct osType.
        -- rewrite decide_True; [done | by left].
        -- rewrite IH. apply decide_ext. rewrite Exists_cons, Hl. cbn. naive_solver.
      * rewrite IH. apply decide_ext. rewrite Exists_cons.
        destruct osType; cbn; naive_solver.
Qed.

#[global] Instance os_selected_charts_dec inputMap osType :
  Decision (os_selected_charts inputMap osType).
Proof. unfold os_selected_charts. destruct (as_string _); apply _. Defined.

#[global] Instance os_selected_resolve_dec inputMap osType :
  Decision (os_selected_resolve inputMap osType).
Proof. unfold os_selected_resolve. destruct (os_is_windows _); apply _. Defined.

(** What the visitor of charts.go does on a node. *)
Lemma pickImage_spec chart osType inputMap (imagesSet : ImagesSet) :
  pickImage chart osType inputMap imagesSet
  = match as_string (map_index inputMap "repository"),
          as_string (map_index inputMap "tag") with
    | Some repository, Some tag =>
        if decide (os_selected_charts inputMap osType)
        then addSourceToImage imagesSet (repository +:+ ":" +:+ tag) [chart]
        else imagesSet
    | _, _ => imagesSet
    end.
Proof.
  unfold pickImage.
  destruct (as_string (map_index inputMap "repository")) as [repository |]; [| done].
  destruct (as_string (map_index inputMap "tag")) as [tag |]; [| done].
  destruct (decide (os_selected_charts inputMap osType)) as [Hsel | Hsel];
    unfold os_selected_charts in Hsel;
    destruct (as_string (map_index inputMap "os")) as [osList |].
  - by rewrite pick_by_os_list_spec, decide_True.
  - by rewrite Hsel.
  - by rewrite pick_by_os_list_spec, decide_False.
  - by destruct osType.
Qed.

(** What [generateImages] does on a node. *)
Lemma generateImages_spec chart inputMap (output : ImagesSet) osType :
  generateImages chart inputMap output osType
  = match as_string (map_index inputMap "repository"), map_get inputMap "tag" with
    | Some repo, Some tag =>
        if decide (os_selected_resolve inputMap osType)
        then addSourceToImage output (repo +:+ ":" +:+ fmt_v tag) [chart]
        else output
    | _, _ => output
    end.
Proof.
  unfold generateImages.
  destruct (as_string (map_index inputMap "repository")) as [repo |]; [| done].
  destruct (map_get inputMap "tag") as [tag |]; [| done].
  destruct (decide (os_selected_resolve inputMap osType)) as [Hsel | Hsel];
    unfold os_selected_resolve in Hsel;
    destruct (os_is_windows (map_index inputMap "os")).
  - by rewrite bool_decide_eq_true_2.
  - by rewrite bool_decide_eq_true_2.
  - by rewrite bool_decide_eq_false_2.
  - by rewrite bool_decide_eq_false_2.
Qed.


(** C1 (as amended). OS partitioning of the two extractors, for a node with
    a repository and a tag. A node with [os: windows] adds nothing in a
    Linux run, and a node with no [os] field adds nothing in a Windows run,
    with either extractor. A node with [os: "windows,linux"] and a string
    tag is added by the visitor of [pickImagesFromValuesMap] in a Linux run
    and in a Windows run; [generateImages] adds it in a Linux run only. *)
Theorem os_partition_of_extractors chart inputMap (imagesSet : ImagesSet) :
  (map_get inputMap "os" = Some (VStr "windows") →
     generateImages chart inputMap imagesSet Linux = imagesSet
     ∧ pickImage chart Linux inputMap imagesSet = imagesSet)
  ∧ (map_get inputMap "os" = None →
     generateImages chart inputMap imagesSet Windows = imagesSet
     ∧ pickImage chart Windows inputMap imagesSet = imagesSet)
  ∧ (map_get inputMap "os" = Some (VStr "windows,linux") →
     ∀ repository, map_get inputMap "repository" = Some (VStr repository) →
     (∀ tag, map_get inputMap "tag" = Some (VStr tag) →
        ∀ osType,
          pickImage chart osType inputMap imagesSet
          = addSourceToImage imagesSet (repository +:+ ":" +:+ tag) [chart]
          ∧ has_source (pickImage chart osType inputMap imagesSet)
              (repository +:+ ":" +:+ tag) chart)
     ∧ (∀ tag, map_get inputMap "tag" = Some tag →
          generateImages chart inputMap imagesSet Linux
          = addSourceToImage imagesSet (repository +:+ ":" +:+ fmt_v tag) [chart]
          ∧ generateImages chart inputMap imagesSet Windows = imagesSet)).
Proof.
  split_and!.
  - intros Hos.
    assert (¬ os_selected_resolve inputMap Linux) as Hr.
    { unfold os_selected_resolve, map_index. by rewrite Hos. }
    assert (¬ os_selected_charts inputMap Linux) as Hc.
    { unfold os_selected_charts, map_index. rewrite Hos. cbn.
      intros [[=] | ?%Exists_nil]%Exists_cons. done. }
    rewrite generateImages_spec, pickImage_spec.
    split; repeat case_match; try done; by rewrite decide_False in * by done.
  - intros Hos.
    assert (¬ os_selected_resolve inputMap Windows) as Hr.
    { unfold os_selected_resolve, map_index. by rewrite Hos. }
    assert (¬ os_selected_charts inputMap Windows) as Hc.
    { unfold os_selected_charts, map_index. by rewrite Hos. }
    rewrite generateImages_spec, pickImage_spec.
    split; repeat case_match; try done; by rewrite decide_False in * by done.
  - intros Hos repository Hrepo.
    assert (∀ osType, os_selected_charts inputMap osType) as Hc.
    { intros osType. unfold os_selected_charts, map_index. rewrite Hos. cbn.
      destruct osType; [right; left | left]; reflexivity. }
    assert (os_selected_resolve inputMap Linux) as Hl.
    { unfold os_selected_resolve, map_index. by rewrite Hos. }
    assert (¬ os_selected_resolve inputMap Windows) as Hw.
    { unfold os_selected_resolve, map_index. by rewrite Hos. }
    split.
    + intros tag Htag osType. rewrite pickImage_spec. unfold map_index.
      rewrite Hrepo, Htag. cbn. rewrite decide_True by done. split; [done |].
      apply has_source_addSourceToImage. left. split; [done | by left].
    + intros tag Htag. rewrite !generateImages_spec. unfold map_index.
      rewrite Hrepo, Htag. cbn. by rewrite decide_True, decide_False by done.
Qed.

(** The visitor of charts.go on a node whose tag is no string: the type
    assertion [inputMap["tag"].(string)] fails, be the key absent or its
    value an integer, a boolean, a float, nil, a mapping or a sequence, and
    the visitor returns. *)
Lemma pickImage_without_string_tag chart osType inputMap (imagesSet : ImagesSet) :
  as_string (map_index inputMap "tag") = None →
  pickImage chart osType inputMap imagesSet = imagesSet.
Proof.
  intros Htag. rewrite pickImage_spec, Htag.
  by destruct (as_string (map_index inputMap "repository")).
Qed.

(** C7. The claim holds for [generateImages] and fails for
    [pickImagesFromValuesMap]. Take a mapping node with a string repository
    and a tag that is present and is no string. [generateImages] adds the
    image named repository, colon, the tag as [%v] prints it, whenever the
    [os] field of the node selects the target system: the tag is
    stringified. The visitor of [pickImagesFromValuesMap] returns at its
    test [inputMap["tag"].(string)] and leaves the accumulator as it is, for
    either target system and whatever the [os] field: the node is skipped.
    So [pickImagesFromValuesMap], on values in which the node is visited,
    returns what its visitor makes of the other visited mappings alone. *)
Theorem pickImagesFromValuesMap_skips_a_non_string_tag
    chart inputMap (imagesSet : ImagesSet) osType repo tag :
  as_string (map_index inputMap "repository") = Some repo →
  map_get inputMap "tag" = Some tag →
  as_string tag = None →
  (os_selected_resolve inputMap osType →
     generateImages chart inputMap imagesSet osType
     = addSourceToImage imagesSet (repo +:+ ":" +:+ fmt_v tag) [chart]
     ∧ has_source (generateImages chart inputMap imagesSet osType)
         (repo +:+ ":" +:+ fmt_v tag) chart)
  ∧ pickImage chart osType inputMap imagesSet = imagesSet
  ∧ (∀ values before after,
       visits (Mapping values) = before ++ inputMap :: after →
       pickImagesFromValuesMap imagesSet values chart osType
       = Ok (foldl (λ acc m, pickImage chart osType m acc) imagesSet
               (before ++ after))).
Proof.
  intros Hrepo Htag Hstr.
  assert (as_string (map_index inputMap "tag") = None) as Hnone.
  { unfold map_index. by rewrite Htag. }
  split_and!.
  - intros Hsel. rewrite generateImages_spec, Hrepo, Htag.
    rewrite decide_True by done. split; [done |].
    apply has_source_addSourceToImage. left. split; [done | by left].
  - by apply pickImage_without_string_tag.
  - intros values before after Hvisits. unfold pickImagesFromValuesMap. f_equal.
    rewrite walkMap_foldl, <- visits_nodes, Hvisits, !foldl_app. cbn [foldl].
    by rewrite pickImage_without_string_tag.
Qed.



(** ** The selectors *)

Lemma filter_none {A : Type} (P : A → Prop) `{!∀ x, Decision (P x)} (l : list A) :
  (∀ x, x ∈ l → ¬ P x) → filter P l = [].
Proof.
  induction l as [| x l IH]; intros Hl; [done |].
  rewrite filter_cons, decide_False by (apply Hl; by left).
  apply IH. intros y Hy. apply Hl. by right.
Qed.

Lemma versions_in_range_from_ok rancherVersion versions chartVersions :
  (∀ v, v ∈ versions → ∃ keep, version_in_range rancherVersion v = Ok keep) →
  versions_in_range_from rancherVersion versions chartVersions
  = Ok (chartVersions
        ++ filter (λ v, returned_true (version_in_range rancherVersion v)) versions).
Proof.
  revert chartVersions. induction versions as [| v rest IH]; intros chartVersions Hok.
  - simpl. by rewrite app_nil_r.
  - destruct (Hok v) as [keep Hkeep]; [by left |].
    cbn [versions_in_range_from]. rewrite Hkeep. cbn [mbind result_bind].
    rewrite IH by (intros w Hw; apply Hok; by right).
    rewrite filter_cons. destruct keep.
    + rewrite decide_True by done. by rewrite <- app_assoc.
    + rewrite decide_False by (unfold returned_true; rewrite Hkeep; congruence). done.
Qed.

Lemma versions_in_range_from_err rancherVersion pre v post chartVersions e :
  (∀ w, w ∈ pre → ∃ keep, version_in_range rancherVersion w = Ok keep) →
  version_in_range rancherVersion v = Err e →
  versions_in_range_from rancherVersion (pre ++ v :: post) chartVersions = Err e.
Proof.
  revert chartVersions. induction pre as [| w pre IH]; intros chartVersions Hok Herr.
  - cbn. by rewrite Herr.
  - destruct (Hok w) as [keep Hkeep]; [by left |].
    cbn. rewrite Hkeep. cbn. apply IH; [| done]. intros u Hu. apply Hok. by right.
Qed.

Lemma versions_in_range_from_sublist rancherVersion versions chartVersions selected :
  versions_in_range_from rancherVersion versions chartVersions = Ok selected →
  ∃ added, selected = chartVersions ++ added ∧ added ⊆ versions.
Proof.
  revert chartVersions. induction versions as [| v rest IH]; intros chartVersions Hsel.
  - injection Hsel as <-. exists []. by rewrite app_nil_r.
  - cbn in Hsel. destruct (version_in_range rancherVersion v) as [keep | |]; [| done | done].
    cbn in Hsel. apply IH in Hsel as (added & -> & Hadded). destruct keep.
    + exists (v :: added). rewrite <- app_assoc. split; [done |]. set_solver.
    + exists added. split; [done |]. set_solver.
Qed.


(** [getVersionsInRancherMinMaxRange] stops at the first version whose
    questions or versions fail to read or parse, and returns that error and
    no version. *)
Theorem ranged_selection_stops_at_first_error rancherVersion pre v post e :
  (∀ w, w ∈ pre → ∃ keep, version_in_range rancherVersion w = Ok keep) →
  version_in_range rancherVersion v = Err e →
  getVersionsInRancherMinMaxRange rancherVersion (pre ++ v :: post) = Err e.
Proof.
  intros Hok Herr. unfold getVersionsInRancherMinMaxRange.
  by rewrite (versions_in_range_from_err _ _ _ _ _ e).
Qed.

(** The lines [filterChartVersions] logs for one version. *)
Lemma filterChartVersions_from_spec show rc chartVersions filtered log :
  (∀ v, v ∈ chartVersions → (filterFunc rc v).1 ≠ Panic) →
  filterChartVersions_from show rc chartVersions filtered log
  = (Ok (filtered ++ filter (λ v, returned_true ((filterFunc rc v).1)) chartVersions),
     log ++ concat ((λ v, (filterFunc rc v).2
                          ++ match (filterFunc rc v).1 with
                             | Err err => [show err]
                             | _ => []
                             end) <$> chartVersions)).
Proof.
  revert filtered log.
  induction chartVersions as [| v rest IH]; intros filtered log Hpanic.
  - cbn. by rewrite !app_nil_r.
  - cbn [filterChartVersions_from]. rewrite filter_cons. cbn [fmap list_fmap concat].
    assert (Hv : (filterFunc rc v).1 ≠ Panic) by (apply Hpanic; by left).
    assert (Hrest : ∀ w, w ∈ rest → (filterFunc rc w).1 ≠ Panic)
      by (intros w Hw; apply Hpanic; by right).
    destruct (filterFunc rc v) as [[[] | err |] lines]; cbn in *; [| | | done].
    + rewrite IH by done. rewrite decide_True by done.
      by rewrite app_nil_r, <- !app_assoc.
    + rewrite IH by done. rewrite decide_False by (unfold returned_true; cbn; congruence).
      by rewrite app_nil_r, <- !app_assoc.
    + rewrite IH by done. rewrite decide_False by (unfold returned_true; cbn; congruence).
      by rewrite <- !app_assoc.
Qed.



(** [filterChartVersions] has no fallback: when the filter takes no version
    it returns none. *)
Theorem filterChartVersions_may_return_no_version show rc chartVersions :
  (∀ v, v ∈ chartVersions → ∃ lines, filterFunc rc v = (Ok false, lines)) →
  (filterChartVersions show rc chartVersions).1 = Ok [].
Proof.
  intros Hnone. unfold filterChartVersions.
  rewrite filterChartVersions_from_spec.
  - cbn. rewrite filter_none; [done |]. intros v Hv.
    destruct (Hnone v Hv) as [lines ->]. unfold returned_true. cbn. congruence.
  - intros v Hv. destruct (Hnone v Hv) as [lines ->]. done.
Qed.

(** With the filter of the system charts, a version without a questions
    file is one of the failing versions, ... *)
Lemma SystemCharts_filterFunc_no_questions sc chartVersion e1 e2 q1 q2 :
  let dir := filepath_Join (sc_repoPath sc) (Dir chartVersion) in
  decodeYAML_Questions (filepath_Join dir "questions.yaml")
    {| RancherMinVersion := ""; RancherMaxVersion := "" |} = (q1, Some e1) →
  decodeYAML_Questions (filepath_Join dir "questions.yml") q1 = (q2, Some e2) →
  SystemCharts_filterFunc sc chartVersion
  = (Err (Errorf "No questions file found in %s" [dir]), []).
Proof.
  intros dir H1 H2. unfold SystemCharts_filterFunc, decodeQuestions. fold dir.
  rewrite H1. cbn. rewrite H2. done.
Qed.

(** ... and so is a version whose questions declare neither a minimum nor a
    maximum. *)
Lemma SystemCharts_filterFunc_no_bounds sc chartVersion lines :
  decodeQuestions (filepath_Join (sc_repoPath sc) (Dir chartVersion))
  = (Ok {| RancherMinVersion := ""; RancherMaxVersion := "" |}, lines) →
  ∃ e, SystemCharts_filterFunc sc chartVersion = (Err e, lines).
Proof.
  intros Hq. unfold SystemCharts_filterFunc. rewrite Hq. cbn. by eexists.
Qed.


(** ** The order on strings and sorting *)

Lemma ascii_compare_lt_trans x y z :
  Ascii.compare x y = Lt → Ascii.compare y z = Lt → Ascii.compare x z = Lt.
Proof. unfold Ascii.compare. rewrite !N.compare_lt_iff. lia. Qed.

Lemma ascii_compare_refl x : Ascii.compare x x = Eq.
Proof. unfold Ascii.compare. apply N.compare_refl. Qed.

Lemma string_compare_refl s : String.compare s s = Eq.
Proof. induction s as [| c s IH]; [done |]. simpl. by rewrite ascii_compare_refl. Qed.

Lemma string_compare_trans a b c :
  String.compare a b ≠ Gt → String.compare b c ≠ Gt → String.compare a c ≠ Gt.
Proof.
  revert b c. induction a as [| x a IH]; intros [| y b] [| z c]; simpl; try done.
  destruct (Ascii.compare x y) eqn:Hxy; [| | done].
  - apply Ascii.compare_eq_iff in Hxy as ->.
    destruct (Ascii.compare y z); [apply IH | done | done].
  - destruct (Ascii.compare y z) eqn:Hyz; [| | done].
    + apply Ascii.compare_eq_iff in Hyz as ->. by rewrite Hxy.
    + by rewrite (ascii_compare_lt_trans x y z).
Qed.

#[global] Instance str_le_trans : Transitive str_le.
Proof.
  intros a b c. unfold str_le, String.leb. intros Hab Hbc.
  pose proof (string_compare_trans a b c) as Htrans.
  destruct (String.compare a b), (String.compare b c), (String.compare a c); try done;
    exfalso; by apply Htrans.
Qed.

#[global] Instance str_le_total : Total str_le.
Proof. intros a b. apply String.leb_total. Qed.

#[global] Instance str_le_antisym : AntiSymm (=) str_le.
Proof. intros a b. apply String.leb_antisym. Qed.

Lemma str_lt_le_ne a b : str_lt a b ↔ str_le a b ∧ a ≠ b.
Proof.
  unfold str_lt, str_le, String.ltb, String.leb. split.
  - destruct (String.compare a b) eqn:Hc; try done. intros _. split; [done |].
    intros ->. by rewrite string_compare_refl in Hc.
  - intros [Hle Hne]. destruct (String.compare a b) eqn:Hc; try done.
    by apply String.compare_eq_iff in Hc.
Qed.

(** Whatever algorithm sorts, a sorted rearrangement is [sort_strings]. *)
Lemma sort_strings_unique l sorted :
  Sorted str_le sorted → sorted ≡ₚ l → sorted = sort_strings l.
Proof.
  intros Hsorted Hperm. apply (Sorted_unique str_le); [done | |].
  - apply (Sorted_merge_sort str_le).
  - unfold sort_strings. by rewrite (merge_sort_Permutation str_le).
Qed.

Lemma sort_strings_Permutation l l' : l ≡ₚ l' → sort_strings l = sort_strings l'.
Proof.
  intros Hperm. apply sort_strings_unique.
  - apply (Sorted_merge_sort str_le).
  - unfold sort_strings. by rewrite (merge_sort_Permutation str_le).
Qed.

Lemma elem_of_sort_strings l s : s ∈ sort_strings l ↔ s ∈ l.
Proof. unfold sort_strings. by rewrite (merge_sort_Permutation str_le). Qed.

Lemma StronglySorted_strict l :
  StronglySorted str_le l → NoDup l → StronglySorted str_lt l.
Proof.
  induction 1 as [| x l Hl IH Hx]; intros Hnodup; constructor.
  - apply IH. by apply NoDup_cons in Hnodup as [_ ?].
  - apply NoDup_cons in Hnodup as [Hnotin _].
    apply Forall_forall. intros y Hy. apply str_lt_le_ne. split.
    + by eapply Forall_forall in Hx.
    + by intros ->.
Qed.

(** Sorting a list without repetitions gives a strictly ascending list. *)
Lemma sort_strings_strict l : NoDup l → Sorted str_lt (sort_strings l).
Proof.
  intros Hnodup. apply StronglySorted_Sorted, StronglySorted_strict.
  - apply (StronglySorted_merge_sort str_le).
  - unfold sort_strings. by rewrite (merge_sort_Permutation str_le).
Qed.

(** ** The output lists *)

Lemma elem_of_true_sources (inner : gmap string bool) s :
  s ∈ true_sources inner ↔ inner !! s = Some true.
Proof.
  unfold true_sources. rewrite elem_of_dom. unfold is_Some.
  setoid_rewrite map_lookup_filter_Some. cbn. split.
  - by intros (b & Hb & ->).
  - intros Hs. by exists true.
Qed.

Lemma true_entries_Permutation (inner : gmap string bool) :
  (filter (λ sv, sv.2 = true) (map_to_list inner)).*1 ≡ₚ elements (true_sources inner).
Proof.
  apply NoDup_Permutation.
  - apply NoDup_fmap_fst.
    + intros s b1 b2 [_ H1]%list_elem_of_filter [_ H2]%list_elem_of_filter.
      apply elem_of_map_to_list in H1, H2. congruence.
    + apply NoDup_filter, NoDup_map_to_list.
  - apply NoDup_elements.
  - intros s. rewrite elem_of_elements, elem_of_true_sources, list_elem_of_fmap. split.
    + intros ([s' b] & -> & [Hb Hin]%list_elem_of_filter). cbn in *. subst b.
      by apply elem_of_map_to_list in Hin.
    + intros Hs. exists (s, true). split; [done |].
      apply list_elem_of_filter. split; [done |]. by apply elem_of_map_to_list.
Qed.

(** [getSourcesList] does not depend on the order in which the inner map is
    iterated, and joins the sorted true sources. *)
Lemma getSourcesList_in_Permutation (inner : gmap string bool) entries :
  entries ≡ₚ map_to_list inner →
  getSourcesList_in entries = Join (sort_strings (elements (true_sources inner))) ",".
Proof.
  intros Hperm. unfold getSourcesList_in. f_equal.
  apply sort_strings_Permutation. rewrite Hperm. apply true_entries_Permutation.
Qed.

Lemma sorted_sources_spec (imagesSet : ImagesSet) image :
  Sorted str_lt (sorted_sources imagesSet image)
  ∧ ∀ s, s ∈ sorted_sources imagesSet image ↔ has_source imagesSet image s.
Proof.
  unfold sorted_sources. split.
  - apply sort_strings_strict, NoDup_elements.
  - intros s. rewrite elem_of_sort_strings, elem_of_elements, elem_of_true_sources.
    unfold has_source. destruct (imagesSet !! image) as [inner |]; cbn.
    + split; [by eexists | by intros (? & [= <-] & ?)].
    + split; [done | by intros (? & [=] & _)].
Qed.

Lemma generateImageAndSourceLists_with_spec (imagesSet : ImagesSet)
    range_images range_sources :
  range_images ≡ₚ (map_to_list imagesSet).*1 →
  (∀ image inner, imagesSet !! image = Some inner →
                  range_sources image ≡ₚ map_to_list inner) →
  generateImageAndSourceLists_with range_images range_sources
  = (sort_strings (elements (dom imagesSet)),
     image_line imagesSet <$> sort_strings (elements (dom imagesSet))).
Proof.
  intros Himages Hsources. unfold generateImageAndSourceLists_with.
  assert (sort_strings range_images = sort_strings (elements (dom imagesSet))) as ->.
  { apply sort_strings_Permutation. rewrite Himages.
    apply NoDup_Permutation.
    - apply NoDup_fst_map_to_list.
    - apply NoDup_elements.
    - intros image. rewrite elem_of_elements, elem_of_dom, list_elem_of_fmap. split.
      + intros ([i inner] & Heq & Hin%elem_of_map_to_list). cbn in Heq. subst i.
        by eexists.
      + intros [inner Hin]. exists (image, inner). split; [done |].
        by apply elem_of_map_to_list. }
  f_equal. apply list_fmap_ext. intros i image Hin.
  apply list_elem_of_lookup_2, elem_of_sort_strings, elem_of_elements, elem_of_dom in Hin
    as [inner Hinner].
  unfold image_line, sorted_sources. rewrite Hinner. cbn. do 2 f_equal.
  apply getSourcesList_in_Permutation. by apply Hsources.
Qed.


(** ** Algebra of [addSourceToImage] *)

Lemma add_sources_ext (inner : gmap string bool) srcs srcs' :
  (∀ s, s ∈ srcs ↔ s ∈ srcs') →
  foldl (λ m source, <[source := true]> m) inner srcs
  = foldl (λ m source, <[source := true]> m) inner srcs'.
Proof.
  intros Hext. apply map_eq. intros s. rewrite !lookup_add_sources.
  destruct (decide (s ∈ srcs)) as [Hin | Hnin].
  - rewrite decide_True; [done | by apply Hext].
  - rewrite decide_False; [done | by rewrite <- Hext].
Qed.

Lemma addSourceToImage_ext (imagesSet : ImagesSet) image srcs srcs' :
  (∀ s, s ∈ srcs ↔ s ∈ srcs') →
  addSourceToImage imagesSet image srcs = addSourceToImage imagesSet image srcs'.
Proof. intros Hext. unfold addSourceToImage. by rewrite (add_sources_ext _ srcs srcs'). Qed.

Lemma addSourceToImage_twice (imagesSet : ImagesSet) image srcs srcs' :
  addSourceToImage (addSourceToImage imagesSet image srcs) image srcs'
  = addSourceToImage imagesSet image (srcs ++ srcs').
Proof.
  unfold addSourceToImage. rewrite lookup_insert_eq, insert_insert_eq. cbn.
  by rewrite foldl_app.
Qed.

Lemma addSourceToImage_comm (imagesSet : ImagesSet) i1 s1 i2 s2 :
  addSourceToImage (addSourceToImage imagesSet i1 s1) i2 s2
  = addSourceToImage (addSourceToImage imagesSet i2 s2) i1 s1.
Proof.
  destruct (decide (i1 = i2)) as [-> | Hne].
  - rewrite !addSourceToImage_twice. apply addSourceToImage_ext.
    intros s. rewrite !elem_of_app. tauto.
  - unfold addSourceToImage. rewrite !lookup_insert_ne by done.
    by apply insert_insert_ne.
Qed.

Lemma addSourceToImage_delete (imagesSet : ImagesSet) k image srcs :
  image ≠ k →
  addSourceToImage (delete k imagesSet) image srcs
  = delete k (addSourceToImage imagesSet image srcs).
Proof.
  intros Hne. unfold addSourceToImage.
  rewrite lookup_delete_ne by done. by rewrite delete_insert_ne.
Qed.

(** Adding a pair a second time changes nothing. *)
Lemma addSourceToImage_idem (imagesSet : ImagesSet) image srcs :
  addSourceToImage (addSourceToImage imagesSet image srcs) image srcs
  = addSourceToImage imagesSet image srcs.
Proof.
  rewrite addSourceToImage_twice. apply addSourceToImage_ext.
  intros s. rewrite elem_of_app. tauto.
Qed.

Lemma has_source_emit_all emissions (imagesSet : ImagesSet) i s :
  has_source (emit_all emissions imagesSet) i s
  ↔ (i, s) ∈ emissions ∨ has_source imagesSet i s.
Proof.
  unfold emit_all. revert imagesSet.
  induction emissions as [| [i' s'] emissions IH]; intros imagesSet; cbn [foldl].
  - split; [by right | by intros [?%elem_of_nil | ?]].
  - rewrite IH, has_source_addSourceToImage. cbn.
    rewrite list_elem_of_singleton, elem_of_cons. split.
    + intros [? | [[-> ->] | ?]]; auto.
    + intros [[[= -> ->] | ?] | ?]; auto.
Qed.

Lemma emit_all_Permutation emissions emissions' (imagesSet : ImagesSet) :
  emissions ≡ₚ emissions' →
  emit_all emissions imagesSet = emit_all emissions' imagesSet.
Proof.
  intros Hperm. revert imagesSet.
  induction Hperm as [| e l l' _ IH | e1 e2 l | l1 l2 l3 _ IH1 _ IH2];
    intros imagesSet; unfold emit_all in *; cbn [foldl].
  - done.
  - apply IH.
  - by rewrite addSourceToImage_comm.
  - by rewrite IH1, IH2.
Qed.

Lemma setImages_emit_all source images (imagesSet : ImagesSet) :
  setImages source images imagesSet = emit_all ((λ image, (image, source)) <$> images) imagesSet.
Proof.
  unfold setImages, emit_all. revert imagesSet.
  induction images as [| image images IH]; intros imagesSet; cbn; [done |]. apply IH.
Qed.


(** ** The body of the mirror pass *)

Lemma true_entries_cons s (b : bool) entries :
  true_entries ((s, b) :: entries)
  = if b then s :: true_entries entries else true_entries entries.
Proof.
  unfold true_entries. rewrite filter_cons. destruct b; cbn.
  - by rewrite decide_True.
  - by rewrite decide_False.
Qed.

Lemma elem_of_true_entries (inner : gmap string bool) s :
  s ∈ true_entries (map_to_list inner) ↔ inner !! s = Some true.
Proof.
  unfold true_entries. rewrite true_entries_Permutation.
  by rewrite elem_of_elements, elem_of_true_sources.
Qed.

Lemma migrate_sources_eq entries convertedImage (imagesSet : ImagesSet) :
  migrate_sources entries convertedImage imagesSet
  = add_if_any convertedImage (true_entries entries) imagesSet.
Proof.
  unfold migrate_sources, add_if_any. revert imagesSet.
  induction entries as [| [s b] entries IH]; intros imagesSet; [done |].
  cbn [foldl]. rewrite IH, true_entries_cons. destruct b; cbn; [| done].
  rewrite (decide_False (P := _ :: _ = [])) by done.
  destruct (decide (true_entries entries = [])) as [-> | Hne]; [done |].
  by rewrite addSourceToImage_twice.
Qed.

(** The order in which the inner map is iterated does not matter. *)
Lemma migrate_sources_Permutation entries entries' convertedImage (imagesSet : ImagesSet) :
  entries ≡ₚ entries' →
  migrate_sources entries convertedImage imagesSet
  = migrate_sources entries' convertedImage imagesSet.
Proof.
  intros Hperm. rewrite !migrate_sources_eq. unfold add_if_any.
  assert (true_entries entries ≡ₚ true_entries entries') as Htrue.
  { unfold true_entries. by rewrite Hperm. }
  destruct (decide (true_entries entries = [])) as [Hnil | Hne].
  - rewrite Hnil in Htrue. apply Permutation_nil_l in Htrue. by rewrite decide_True.
  - rewrite decide_False.
    + apply addSourceToImage_ext. intros s. by rewrite Htrue.
    + intros Hnil. rewrite Hnil in Htrue. by apply Permutation_nil_r in Htrue.
Qed.

Lemma convert_body_fixed k (imagesSet : ImagesSet) :
  Mirror k = k → convert_body k imagesSet = imagesSet.
Proof. intros Hfix. unfold convert_body. by rewrite Hfix, String.eqb_refl. Qed.

Lemma convert_body_rewritten k (imagesSet : ImagesSet) :
  Mirror k ≠ k →
  convert_body k imagesSet
  = delete k (add_if_any (Mirror k)
                (true_entries (map_to_list (default ∅ (imagesSet !! k)))) imagesSet).
Proof.
  intros Hne. unfold convert_body.
  destruct (String.eqb_spec k (Mirror k)) as [Heq | _]; [by rewrite <- Heq in Hne |].
  by rewrite migrate_sources_eq.
Qed.

Lemma add_if_any_delete c srcs k (imagesSet : ImagesSet) :
  c ≠ k →
  add_if_any c srcs (delete k imagesSet) = delete k (add_if_any c srcs imagesSet).
Proof.
  intros Hne. unfold add_if_any. destruct (decide (srcs = [])); [done |].
  by apply addSourceToImage_delete.
Qed.

Lemma add_if_any_comm c1 s1 c2 s2 (imagesSet : ImagesSet) :
  add_if_any c1 s1 (add_if_any c2 s2 imagesSet)
  = add_if_any c2 s2 (add_if_any c1 s1 imagesSet).
Proof.
  unfold add_if_any. destruct (decide (s1 = [])), (decide (s2 = [])); try done.
  apply addSourceToImage_comm.
Qed.

Lemma lookup_add_if_any_ne c srcs i (imagesSet : ImagesSet) :
  i ≠ c → add_if_any c srcs imagesSet !! i = imagesSet !! i.
Proof.
  intros Hne. unfold add_if_any. destruct (decide (srcs = [])); [done |].
  rewrite lookup_addSourceToImage. by rewrite decide_False.
Qed.

Lemma has_source_add_if_any c srcs i s (imagesSet : ImagesSet) :
  has_source (add_if_any c srcs imagesSet) i s
  ↔ (i = c ∧ s ∈ srcs) ∨ has_source imagesSet i s.
Proof.
  unfold add_if_any. destruct (decide (srcs = [])) as [-> | Hne].
  - split; [by right | by intros [[_ ?%elem_of_nil] | ?]].
  - apply has_source_addSourceToImage.
Qed.

Lemma dom_add_if_any c srcs (imagesSet : ImagesSet) :
  dom imagesSet ⊆ dom (add_if_any c srcs imagesSet)
  ∧ dom (add_if_any c srcs imagesSet) ⊆ dom imagesSet ∪ {[c]}.
Proof.
  unfold add_if_any. destruct (decide (srcs = [])); [set_solver |].
  rewrite dom_addSourceToImage. set_solver.
Qed.

Lemma has_source_delete k i s (imagesSet : ImagesSet) :
  has_source (delete k imagesSet) i s ↔ i ≠ k ∧ has_source imagesSet i s.
Proof.
  unfold has_source. destruct (decide (i = k)) as [-> | Hne].
  - rewrite lookup_delete_eq. split; [by intros (? & [=] & _) | by intros [? _]].
  - rewrite lookup_delete_ne by done. tauto.
Qed.

Lemma has_source_convert_body k i s (imagesSet : ImagesSet) :
  Mirror k ≠ k →
  has_source (convert_body k imagesSet) i s
  ↔ i ≠ k ∧ (has_source imagesSet i s ∨ (i = Mirror k ∧ has_source imagesSet k s)).
Proof.
  intros Hne. rewrite convert_body_rewritten by done.
  rewrite has_source_delete, has_source_add_if_any, elem_of_true_entries.
  assert (default ∅ (imagesSet !! k) !! s = Some true ↔ has_source imagesSet k s) as ->.
  { unfold has_source. destruct (imagesSet !! k) as [inner |]; cbn.
    - split; [by eexists | by intros (? & [= <-] & ?)].
    - split; [done | by intros (? & [=] & _)]. }
  tauto.
Qed.

Lemma lookup_convert_body_other k i (imagesSet : ImagesSet) :
  i ≠ k → i ≠ Mirror k → convert_body k imagesSet !! i = imagesSet !! i.
Proof.
  intros Hk Hc. destruct (decide (Mirror k = k)) as [Hfix | Hne].
  - by rewrite convert_body_fixed.
  - rewrite convert_body_rewritten by done.
    rewrite lookup_delete_ne by done. by apply lookup_add_if_any_ne.
Qed.

Lemma lookup_convert_body_self k (imagesSet : ImagesSet) :
  Mirror k ≠ k → convert_body k imagesSet !! k = None.
Proof. intros Hne. rewrite convert_body_rewritten by done. apply lookup_delete_eq. Qed.

Lemma dom_convert_body k (imagesSet : ImagesSet) :
  Mirror k ≠ k →
  dom imagesSet ∖ {[k]} ⊆ dom (convert_body k imagesSet)
  ∧ dom (convert_body k imagesSet) ⊆ (dom imagesSet ∖ {[k]}) ∪ {[Mirror k]}.
Proof.
  intros Hne. rewrite convert_body_rewritten by done. rewrite dom_delete_L.
  pose proof (dom_add_if_any (Mirror k)
                (true_entries (map_to_list (default ∅ (imagesSet !! k)))) imagesSet)
    as [Hlow Hup].
  split; set_solver.
Qed.


(** ** The mirror pass under an idempotent rule *)

Lemma range_inv_start (imagesSet : ImagesSet) : range_inv (range_start imagesSet).
Proof. split; cbn; [done | set_solver]. Qed.

Section IdempotentMirror.

Hypothesis Mirror_idem : ∀ image, Mirror (Mirror image) = Mirror image.

Lemma convert_body_comm k1 k2 (imagesSet : ImagesSet) :
  k1 ≠ k2 → Mirror k1 ≠ k1 → Mirror k2 ≠ k2 →
  convert_body k1 (convert_body k2 imagesSet)
  = convert_body k2 (convert_body k1 imagesSet).
Proof using Mirror_idem.
  intros Hne H1 H2.
  assert (k1 ≠ Mirror k2) as H12 by (intros ->; by rewrite Mirror_idem in H1).
  assert (k2 ≠ Mirror k1) as H21 by (intros ->; by rewrite Mirror_idem in H2).
  rewrite (convert_body_rewritten k1 (convert_body k2 _)) by done.
  rewrite (convert_body_rewritten k2 (convert_body k1 _)) by done.
  rewrite (lookup_convert_body_other k2 k1), (lookup_convert_body_other k1 k2) by done.
  rewrite (convert_body_rewritten k1 imagesSet), (convert_body_rewritten k2 imagesSet) by done.
  rewrite !add_if_any_delete by done.
  rewrite (add_if_any_comm (Mirror k1)). apply delete_delete.
Qed.

Lemma elem_of_rewritten_keys k (imagesSet : ImagesSet) :
  k ∈ rewritten_keys imagesSet ↔ Mirror k ≠ k ∧ k ∈ dom imagesSet.
Proof using Mirror_idem. unfold rewritten_keys. by rewrite elem_of_filter. Qed.

Lemma rewritten_keys_convert_body k (imagesSet : ImagesSet) :
  Mirror k ≠ k →
  rewritten_keys (convert_body k imagesSet) = rewritten_keys imagesSet ∖ {[k]}.
Proof using Mirror_idem.
  intros Hne. apply set_eq. intros i.
  pose proof (dom_convert_body k imagesSet Hne) as [Hlow Hup].
  rewrite elem_of_difference, !elem_of_rewritten_keys, not_elem_of_singleton. split.
  - intros [Hi Hin]. apply Hup in Hin.
    apply elem_of_union in Hin as [Hin | ->%elem_of_singleton].
    + apply elem_of_difference in Hin as [Hin Hk%not_elem_of_singleton]. done.
    + by rewrite Mirror_idem in Hi.
  - intros [[Hi Hin] Hk]. split; [done |]. apply Hlow.
    apply elem_of_difference. by rewrite not_elem_of_singleton.
Qed.

Lemma foldr_convert_body_comm k keys (imagesSet : ImagesSet) :
  Mirror k ≠ k → k ∉ keys → Forall (λ i, Mirror i ≠ i) keys →
  foldr convert_body (convert_body k imagesSet) keys
  = convert_body k (foldr convert_body imagesSet keys).
Proof using Mirror_idem.
  intros Hk. induction keys as [| i keys IH]; intros Hnotin Hkeys; [done |].
  apply Forall_cons in Hkeys as [Hi Hkeys]. apply not_elem_of_cons in Hnotin as [Hne Hnotin].
  cbn [foldr]. rewrite IH by done. by apply convert_body_comm.
Qed.

(** A step of the pass does not change where the pass ends. *)
Lemma mirror_normal_form_step k (imagesSet : ImagesSet) :
  k ∈ dom imagesSet →
  mirror_normal_form (convert_body k imagesSet) = mirror_normal_form imagesSet.
Proof using Mirror_idem.
  intros Hin. destruct (decide (Mirror k = k)) as [Hfix | Hne].
  { by rewrite convert_body_fixed. }
  unfold mirror_normal_form. rewrite rewritten_keys_convert_body by done.
  assert (k ∈ rewritten_keys imagesSet) as Hk by (by apply elem_of_rewritten_keys).
  assert (elements (rewritten_keys imagesSet)
          ≡ₚ k :: elements (rewritten_keys imagesSet ∖ {[k]})) as Hperm.
  { rewrite <- elements_union_singleton by set_solver.
    apply elements_proper. apply set_equiv. intros i.
    rewrite elem_of_union, elem_of_singleton, elem_of_difference, not_elem_of_singleton.
    destruct (decide (i = k)) as [-> | ?]; tauto. }
  assert (Forall (λ i, Mirror i ≠ i) (elements (rewritten_keys imagesSet ∖ {[k]}))) as Hall.
  { apply Forall_forall. intros i Hi%elem_of_elements.
    apply elem_of_difference in Hi as [Hi _].
    by apply elem_of_rewritten_keys in Hi as [? _]. }
  rewrite foldr_convert_body_comm; [| done | | done].
  - symmetry. change (convert_body k (foldr convert_body imagesSet ?l))
      with (foldr convert_body imagesSet (k :: l)).
    apply (foldr_permutation (=) convert_body imagesSet); [| done].
    intros j1 a1 j2 a2 b Hj Ha1 Ha2.
    assert (a1 ∈ rewritten_keys imagesSet) as [? _]%elem_of_rewritten_keys
      by (eapply elem_of_elements, list_elem_of_lookup_2; exact Ha1).
    assert (a2 ∈ rewritten_keys imagesSet) as [? _]%elem_of_rewritten_keys
      by (eapply elem_of_elements, list_elem_of_lookup_2; exact Ha2).
    apply convert_body_comm; [| done | done]. intros ->.
    apply Hj.
    exact (NoDup_lookup _ _ _ _ (NoDup_elements (rewritten_keys imagesSet)) Ha1 Ha2).
  - rewrite elem_of_elements. set_solver.
Qed.

Lemma mirror_normal_form_fixed (imagesSet : ImagesSet) :
  (∀ k, k ∈ dom imagesSet → Mirror k = k) → mirror_normal_form imagesSet = imagesSet.
Proof using Mirror_idem.
  intros Hfix. unfold mirror_normal_form.
  assert (rewritten_keys imagesSet = ∅) as ->; [| by rewrite elements_empty].
  apply set_eq. intros i. rewrite elem_of_rewritten_keys.
  split; [| by intros ?%not_elem_of_empty]. intros [Hne Hin]. by apply Hfix in Hin.
Qed.

Lemma range_inv_produce st k :
  range_inv st → k ∈ rs_pending st ∪ rs_fresh st →
  range_inv (range_produce convert_body st k).
Proof using Mirror_idem.
  intros [Hpending Hsub] Hk. split; cbn; [| set_solver].
  intros i Hin Hi. destruct (decide (Mirror k = k)) as [Hfix | Hne].
  - rewrite convert_body_fixed in Hin |- * by done.
    assert (i ≠ k) by (by intros ->). set_solver.
  - pose proof (dom_convert_body k (rs_map st) Hne) as [_ Hup].
    specialize (Hup i Hin).
    apply elem_of_union in Hup as [Hup | ->%elem_of_singleton].
    + set_solver.
    + by rewrite Mirror_idem in Hi.
Qed.

(** Reasoning on a run, from its end back to its start. *)
Lemma range_run_ind_back (P : ImagesSet → ImagesSet → Prop) :
  (∀ m, (∀ k, k ∈ dom m → Mirror k = k) → P m m) →
  (∀ k m r, k ∈ dom m → P (convert_body k m) r → P m r) →
  ∀ st r, range_run convert_body st r → range_inv st → P (rs_map st) r.
Proof using Mirror_idem.
  intros Hdone Hstep st r Hrun.
  induction Hrun as [st Hempty | st st' r Hst _ IH]; intros Hinv.
  - apply Hdone. intros k Hin. destruct (decide (Mirror k = k)) as [| Hne]; [done |].
    destruct Hinv as [Hpending _]. specialize (Hpending k Hin Hne).
    rewrite Hempty in Hpending. by apply not_elem_of_empty in Hpending.
  - destruct Hst as [st k Hk]. apply (Hstep k).
    + destruct Hinv as [_ Hsub]. by apply Hsub.
    + apply IH. by apply range_inv_produce.
Qed.

Lemma convertMirroredImages_normal_form (imagesSet converted : ImagesSet) :
  convertMirroredImages imagesSet converted →
  converted = mirror_normal_form imagesSet
  ∧ ∀ k, k ∈ dom converted → Mirror k = k.
Proof using Mirror_idem.
  intros Hrun.
  refine (range_run_ind_back
           (λ m r, r = mirror_normal_form m ∧ ∀ k, k ∈ dom r → Mirror k = k) _ _ _ _ Hrun (range_inv_start _)).
  - intros m Hfix. by rewrite mirror_normal_form_fixed.
  - intros k m r Hin [-> Hfix]. by rewrite mirror_normal_form_step in *.
Qed.

(** Every step lowers the measure. *)
Lemma range_measure_step st st' :
  range_step convert_body st st' → range_measure st' < range_measure st.
Proof using Mirror_idem.
  intros [st0 k Hk]. unfold range_measure. cbn.
  set (W := rs_pending st0 ∪ rs_fresh st0) in *.
  set (m' := convert_body k (rs_map st0)).
  set (W' := (rs_pending st0 ∖ {[k]}) ∩ dom m'
             ∪ ((rs_fresh st0 ∖ {[k]}) ∩ dom m' ∪ dom m' ∖ dom (rs_map st0))).
  assert (size (W ∖ {[k]}) + 1 = size W) as Hsize.
  { rewrite size_difference by set_solver. rewrite size_singleton.
    assert (size W ≠ 0); [| lia]. apply size_non_empty_iff. set_solver. }
  destruct (decide (Mirror k = k)) as [Hfix | Hne].
  - assert (W' ⊆ W ∖ {[k]}) as Hsub.
    { subst W' m'. rewrite convert_body_fixed by done. set_solver. }
    assert (filter (λ image, Mirror image ≠ image) W'
            ⊆ filter (λ image, Mirror image ≠ image) W) as Hsub'.
    { intros i [? Hi]%elem_of_filter. apply elem_of_filter. split; [done |]. set_solver. }
    apply subseteq_size in Hsub, Hsub'. lia.
  - pose proof (dom_convert_body k (rs_map st0) Hne) as [_ Hup]. fold m' in Hup.
    assert (W' ⊆ W ∖ {[k]} ∪ {[Mirror k]}) as Hsub by set_solver.
    assert (filter (λ image, Mirror image ≠ image) W'
            ⊆ filter (λ image, Mirror image ≠ image) W ∖ {[k]}) as Hsub'.
    { intros i [Hi Hin]%elem_of_filter. apply Hsub in Hin.
      apply elem_of_union in Hin as [Hin | ->%elem_of_singleton].
      - apply elem_of_difference in Hin as [Hin Hik].
        apply elem_of_difference. split; [by apply elem_of_filter | done].
      - by rewrite Mirror_idem in Hi. }
    assert (size (filter (λ image, Mirror image ≠ image) W ∖ {[k]}) + 1
            = size (filter (λ image, Mirror image ≠ image) W)) as Hsize'.
    { assert (k ∈ filter (λ image, Mirror image ≠ image) W) as Hkf
        by (by apply elem_of_filter).
      rewrite size_difference by set_solver. rewrite size_singleton.
      assert (size (filter (λ image, Mirror image ≠ image) W) ≠ 0); [| lia].
      apply size_non_empty_iff. set_solver. }
    apply subseteq_size in Hsub, Hsub'.
    assert (size (W ∖ {[k]} ∪ {[Mirror k]}) ≤ size (W ∖ {[k]}) + 1) as Hunion.
    { rewrite size_union_alt.
      assert (size (({[Mirror k]} : gset string) ∖ (W ∖ {[k]})) ≤ 1); [| lia].
      rewrite <- (size_singleton (C := gset string) (Mirror k)).
      apply subseteq_size. set_solver. }
    lia.
Qed.

(** The pass ends, whatever entries the loop produces and in whatever
    order. *)
Lemma range_terminates st : Acc (flip (range_step convert_body)) st.
Proof using Mirror_idem.
  assert (∀ n st, range_measure st < n → Acc (flip (range_step convert_body)) st)
    as Hwf; [| apply (Hwf (S (range_measure st))); lia].
  clear st. induction n as [| n IH]; intros st Hlt; [lia |].
  constructor. intros st' Hstep. apply IH.
  apply range_measure_step in Hstep. lia.
Qed.

End IdempotentMirror.

(** The loop can always run to its end. *)
Lemma range_run_exists st :
  rs_pending st ∪ rs_fresh st ⊆ dom (rs_map st) →
  ∃ r, range_run convert_body st r.
Proof.
  remember (size (rs_pending st)) as n eqn:Hn. revert st Hn.
  induction n as [n IH] using lt_wf_ind. intros st -> Hsub.
  destruct (decide (rs_pending st = ∅)) as [Hempty | Hne].
  - eexists. by constructor.
  - apply set_choose_L in Hne as [k Hk].
    destruct (IH (size (rs_pending (range_produce convert_body st k))))
      with (st := range_produce convert_body st k) as [r Hr].
    + cbn. apply subset_size. set_solver.
    + done.
    + cbn. set_solver.
    + exists r. eapply range_run_next; [| exact Hr]. constructor. set_solver.
Qed.

Lemma convertMirroredImages_total (imagesSet : ImagesSet) :
  ∃ converted, convertMirroredImages imagesSet converted.
Proof. apply range_run_exists. cbn. set_solver. Qed.


Lemma lookup_add_if_any_eq c srcs (imagesSet : ImagesSet) inner :
  imagesSet !! c = Some inner →
  ∃ inner', add_if_any c srcs imagesSet !! c = Some inner'
            ∧ ∀ s, inner !! s = Some true → inner' !! s = Some true.
Proof.
  intros Hc. unfold add_if_any. destruct (decide (srcs = [])); [by eexists |].
  rewrite lookup_addSourceToImage, decide_True by done. eexists. split; [done |].
  intros s Hs. rewrite lookup_add_sources, Hc. cbn. by destruct (decide (s ∈ srcs)).
Qed.

Section MirrorPassClaims.

Hypothesis Mirror_idem : ∀ image, Mirror (Mirror image) = Mirror image.

Lemma convertMirroredImages_carries_sources (imagesSet converted : ImagesSet) :
  convertMirroredImages imagesSet converted →
  ∀ k s, has_source imagesSet k s → has_source converted (Mirror k) s.
Proof using Mirror_idem.
  intros Hrun.
  refine (range_run_ind_back Mirror_idem
           (λ m r, ∀ k s, has_source m k s → has_source r (Mirror k) s) _ _ _ _ Hrun (range_inv_start _)).
  - intros m Hfix k s Hs. rewrite Hfix; [done |].
    destruct Hs as (inner & Hk & _). apply elem_of_dom. by eexists.
  - intros k0 m r _ IH k s Hs. destruct (decide (Mirror k0 = k0)) as [Hfix | Hne].
    { rewrite convert_body_fixed in IH by done. by apply IH. }
    destruct (decide (k = k0)) as [-> | Hk].
    + rewrite <- Mirror_idem. apply IH. apply has_source_convert_body; [done |].
      split; [done |]. by right.
    + apply IH. apply has_source_convert_body; [done |]. split; [done |]. by left.
Qed.

Lemma convertMirroredImages_invents_nothing (imagesSet converted : ImagesSet) :
  convertMirroredImages imagesSet converted →
  ∀ image s, has_source converted image s →
             ∃ k, Mirror k = image ∧ has_source imagesSet k s.
Proof using Mirror_idem.
  intros Hrun.
  refine (range_run_ind_back Mirror_idem
           (λ m r, ∀ image s, has_source r image s →
                              ∃ k, Mirror k = image ∧ has_source m k s) _ _ _ _ Hrun (range_inv_start _)).
  - intros m Hfix image s Hs. exists image. split; [| done]. apply Hfix.
    destruct Hs as (inner & Hk & _). apply elem_of_dom. by eexists.
  - intros k0 m r _ IH image s Hs. destruct (decide (Mirror k0 = k0)) as [Hfix | Hne].
    { rewrite convert_body_fixed in IH by done. by apply IH. }
    destruct (IH image s Hs) as (k & Hk & Hsrc).
    apply has_source_convert_body in Hsrc as [_ [Hsrc | [-> Hsrc]]]; [| | done].
    + by exists k.
    + exists k0. by rewrite Mirror_idem in Hk.
Qed.

Lemma convertMirroredImages_keeps_fixed (imagesSet converted : ImagesSet) :
  convertMirroredImages imagesSet converted →
  ∀ image inner, Mirror image = image → imagesSet !! image = Some inner →
    ∃ inner', converted !! image = Some inner'
              ∧ (∀ s, inner !! s = Some true → inner' !! s = Some true)
              ∧ ((∀ k, k ∈ dom imagesSet → Mirror k = image → k = image) →
                 inner' = inner).
Proof using Mirror_idem.
  intros Hrun.
  refine (range_run_ind_back Mirror_idem
           (λ m r, ∀ image inner, Mirror image = image → m !! image = Some inner →
              ∃ inner', r !! image = Some inner'
                        ∧ (∀ s, inner !! s = Some true → inner' !! s = Some true)
                        ∧ ((∀ k, k ∈ dom m → Mirror k = image → k = image) →
                           inner' = inner)) _ _ _ _ Hrun (range_inv_start _)).
  - intros m _ image inner _ Hm. by exists inner.
  - intros k0 m r Hk0 IH image inner Himage Hm.
    destruct (decide (Mirror k0 = k0)) as [Hfix | Hne].
    { rewrite convert_body_fixed in IH by done. by apply IH. }
    assert (image ≠ k0) as Hik by (by intros ->).
    destruct (decide (image = Mirror k0)) as [-> | Hic].
    + destruct (lookup_add_if_any_eq (Mirror k0)
                  (true_entries (map_to_list (default ∅ (m !! k0)))) m inner Hm)
        as (inner2 & Hinner2 & Htrue2).
      destruct (IH (Mirror k0) inner2 Himage) as (inner' & Hr & Htrue & _).
      { rewrite convert_body_rewritten by done. by rewrite lookup_delete_ne. }
      exists inner'. split_and!; [done | by intros s Hs; apply Htrue, Htrue2 |].
      intros Hnone. by specialize (Hnone k0 Hk0 eq_refl).
    + destruct (IH image inner Himage) as (inner' & Hr & Htrue & Hsame).
      { by rewrite lookup_convert_body_other. }
      exists inner'. split_and!; [done | done |].
      intros Hnone. apply Hsame. intros k Hk Hmk.
      pose proof (dom_convert_body k0 m Hne) as [_ Hup]. specialize (Hup k Hk).
      apply elem_of_union in Hup as [Hup | ->%elem_of_singleton].
      * apply Hnone; [set_solver | done].
      * by rewrite Mirror_idem in Hmk.
Qed.

(** C4. Mirror rename semantics ([convertMirroredImages], with the mirror
    rule idempotent as its interface states). After one pass, for every
    image whose mirrored name differs from its name: the old key is absent,
    and every source that was true under the old key is true under the new
    key. An image whose mirrored name is its name is left alone by the loop
    body; after the pass it is still a key and every source that was true
    under it still is, and when no other image is renamed onto it its
    sources are exactly what they were. No source is made up: a source that
    is true after the pass was true before, under a key whose mirrored name
    is the key it is under now. *)
Theorem mirror_pass_renames (imagesSet converted : ImagesSet) :
  convertMirroredImages imagesSet converted →
  (∀ image, Mirror image ≠ image →
     converted !! image = None
     ∧ ∀ source, has_source imagesSet image source →
                 has_source converted (Mirror image) source)
  ∧ (∀ image, Mirror image = image →
       (∀ acc : ImagesSet, convert_body image acc = acc)
       ∧ ∀ inner, imagesSet !! image = Some inner →
           ∃ inner', converted !! image = Some inner'
                     ∧ (∀ source, inner !! source = Some true →
                                  inner' !! source = Some true)
                     ∧ ((∀ k, k ∈ dom imagesSet → Mirror k = image → k = image) →
                        inner' = inner))
  ∧ (∀ image source, has_source converted image source →
       ∃ k, Mirror k = image ∧ has_source imagesSet k source).
Proof using Mirror_idem.
  intros Hrun. split_and!.
  - intros image Hne. split.
    + apply convertMirroredImages_normal_form in Hrun as [_ Hfix]; [| done].
      apply not_elem_of_dom. intros Hin. by apply Hfix in Hin.
    + intros source. by apply convertMirroredImages_carries_sources.
  - intros image Hfix. split.
    + intros acc. by apply convert_body_fixed.
    + intros inner. by apply convertMirroredImages_keeps_fixed.
  - by apply convertMirroredImages_invents_nothing.
Qed.

(** C5. Mirror Normalizer idempotence. With an idempotent mirror rule, the
    pass ends (no sequence of loop iterations goes on for ever, whichever
    entries the loop produces and in whatever order, and some sequence
    reaches the end), its result does not depend on the order, and a second
    pass over the result of the first leaves it as it is. *)
Theorem mirror_pass_idempotent (imagesSet : ImagesSet) :
  Acc (flip (range_step convert_body)) (range_start imagesSet)
  ∧ (∃ once, convertMirroredImages imagesSet once)
  ∧ (∀ once once', convertMirroredImages imagesSet once →
                   convertMirroredImages imagesSet once' → once = once')
  ∧ (∀ once, convertMirroredImages imagesSet once →
       convertMirroredImages once once
       ∧ ∀ twice, convertMirroredImages once twice → twice = once).
Proof using Mirror_idem.
  split_and!.
  - by apply range_terminates.
  - apply convertMirroredImages_total.
  - intros once once' [-> _]%convertMirroredImages_normal_form
      [-> _]%convertMirroredImages_normal_form; done.
  - intros once [_ Hfix]%convertMirroredImages_normal_form; [| done].
    assert (∀ twice, convertMirroredImages once twice → twice = once) as Hsame.
    { intros twice [-> _]%convertMirroredImages_normal_form; [| done].
      by apply mirror_normal_form_fixed. }
    split; [| done].
    destruct (convertMirroredImages_total once) as [twice Htwice].
    by rewrite <- (Hsame twice Htwice) at 2.
Qed.

End MirrorPassClaims.


(** ** The output lists of a call *)

Lemma generateImageAndSourceLists_returns_spec (imagesSet : ImagesSet) lists :
  generateImageAndSourceLists_returns imagesSet lists
  ↔ lists = (sort_strings (elements (dom imagesSet)),
             image_line imagesSet <$> sort_strings (elements (dom imagesSet))).
Proof.
  split.
  - intros (range_images & range_sources & Himages & Hsources & ->).
    by apply generateImageAndSourceLists_with_spec.
  - intros ->. exists ((map_to_list imagesSet).*1),
      (λ image, map_to_list (default ∅ (imagesSet !! image))).
    split_and!; [done | by intros image inner -> |].
    symmetry. apply generateImageAndSourceLists_with_spec; [done |].
    by intros image inner ->.
Qed.

Lemma generateImageAndSourceLists_spec (imagesSet : ImagesSet) :
  generateImageAndSourceLists imagesSet
  = (sort_strings (elements (dom imagesSet)),
     image_line imagesSet <$> sort_strings (elements (dom imagesSet))).
Proof.
  apply generateImageAndSourceLists_with_spec; [done |]. by intros image inner ->.
Qed.

Lemma setImages_comm source1 images1 source2 images2 (imagesSet : ImagesSet) :
  setImages source1 images1 (setImages source2 images2 imagesSet)
  = setImages source2 images2 (setImages source1 images1 imagesSet).
Proof.
  rewrite !setImages_emit_all. unfold emit_all. rewrite <- !foldl_app.
  apply (emit_all_Permutation (_ ++ _) (_ ++ _)). apply Permutation_app_comm.
Qed.

Lemma setImages_setRequirementImages source images osType (imagesSet : ImagesSet) :
  setImages source images (setRequirementImages osType imagesSet)
  = setRequirementImages osType (setImages source images imagesSet).
Proof.
  destruct osType; [| done]. unfold setRequirementImages.
  change (addSourceToImage (addSourceToImage ?acc ShellImage ["core"]) "busybox" ["core"])
    with (setImages "core" [ShellImage; "busybox"] acc).
  apply setImages_comm.
Qed.

(** C9. Source union ([addSourceToImage], [getSourcesList]). After any
    sequence of emissions, a source is true for an image exactly when the
    pair was emitted or the source was true before: the labels of all phases
    are united. The line of the image in the output is its name, a space,
    and these sources joined by commas, in strictly ascending order, so
    sorted and with no label twice. Emitting a pair a second time changes
    nothing, no emission takes a label away, and the order of the emissions
    does not matter. *)
Theorem sources_are_united (imagesSet : ImagesSet) emissions image :
  (∀ source, has_source (emit_all emissions imagesSet) image source
             ↔ (image, source) ∈ emissions ∨ has_source imagesSet image source)
  ∧ (∀ lists, generateImageAndSourceLists_returns (emit_all emissions imagesSet) lists →
       lists.2 = image_line (emit_all emissions imagesSet) <$> lists.1
       ∧ (image ∈ lists.1 ↔ image ∈ dom (emit_all emissions imagesSet)))
  ∧ image_line (emit_all emissions imagesSet) image
    = image +:+ " " +:+ Join (sorted_sources (emit_all emissions imagesSet) image) ","
  ∧ Sorted str_lt (sorted_sources (emit_all emissions imagesSet) image)
  ∧ (∀ source, source ∈ sorted_sources (emit_all emissions imagesSet) image
               ↔ has_source (emit_all emissions imagesSet) image source)
  ∧ (∀ source,
       addSourceToImage (addSourceToImage imagesSet image [source]) image [source]
       = addSourceToImage imagesSet image [source])
  ∧ (∀ other sources i s,
       has_source imagesSet i s → has_source (addSourceToImage imagesSet other sources) i s)
  ∧ (∀ emissions', emissions ≡ₚ emissions' →
       emit_all emissions imagesSet = emit_all emissions' imagesSet).
Proof.
  split_and!.
  - intros source. apply has_source_emit_all.
  - intros lists ->%generateImageAndSourceLists_returns_spec. cbn. split; [done |].
    by rewrite elem_of_sort_strings, elem_of_elements.
  - done.
  - apply sorted_sources_spec.
  - apply sorted_sources_spec.
  - intros source. apply addSourceToImage_idem.
  - intros other sources i s Hs. apply has_source_addSourceToImage. by right.
  - intros emissions'. apply emit_all_Permutation.
Qed.

(** ** Calls with more than one possible outcome *)

Lemma and_then_inv {A B : Type} (m : may (result A)) (f : A → may (result B)) out :
  and_then m f out →
  (∃ a, m (Ok a) ∧ f a out) ∨ (∃ e, m (Err e) ∧ out = Err e) ∨ (m Panic ∧ out = Panic).
Proof.
  intros ([a | e |] & Hm & Hout); [left | right; left | right; right]; eauto.
Qed.

Lemma and_then_ok {A B : Type} (m : may (result A)) (f : A → may (result B)) a out :
  m (Ok a) → f a out → and_then m f out.
Proof. intros Hm Hf. by exists (Ok a). Qed.

Lemma may_wrap_inv {A : Type} (m : may (result A)) format args r :
  may_wrap m format args r ↔ ∃ r0, m r0 ∧ r = wrap r0 format args.
Proof. done. Qed.

Lemma fails_with_wrap {A B : Type} (r0 : result A) format (out : result B) :
  match wrap r0 format [] with
  | Ok _ => False
  | Err e => out = Err e
  | Panic => out = Panic
  end →
  fails_with r0 format out.
Proof. by destruct r0. Qed.

Lemma and_then_ret {A B : Type} (r : result A) (f : A → may (result B)) out :
  and_then (may_ret r) f out
  ↔ match r with Ok a => f a out | Err e => out = Err e | Panic => out = Panic end.
Proof.
  split.
  - intros (r' & Hr & Hout). unfold may_ret in Hr. subst r'. by destruct r.
  - intros Hout. exists r. split; [done |]. by destruct r.
Qed.

(** ** The tail of [GetImages] *)

Lemma finishImages_spec (imagesSet : ImagesSet) out :
  finishImages imagesSet out
  ↔ ∃ converted, convertMirroredImages imagesSet converted
                 ∧ out = Ok (generateImageAndSourceLists converted).
Proof.
  split.
  - intros (converted & Hconverted & lists & Hlists & ->).
    apply generateImageAndSourceLists_returns_spec in Hlists as ->.
    exists converted. by rewrite generateImageAndSourceLists_spec.
  - intros (converted & Hconverted & ->).
    exists converted. split; [done |]. exists (generateImageAndSourceLists converted).
    split; [| done].
    apply generateImageAndSourceLists_returns_spec, generateImageAndSourceLists_spec.
Qed.

Lemma finishImages_total (imagesSet : ImagesSet) :
  ∃ lists, finishImages imagesSet (Ok lists).
Proof.
  destruct (convertMirroredImages_total imagesSet) as [converted Hconverted].
  exists (generateImageAndSourceLists converted). apply finishImages_spec. eauto.
Qed.

Lemma finishImages_deterministic (imagesSet : ImagesSet) out1 out2 :
  (∀ image, Mirror (Mirror image) = Mirror image) →
  finishImages imagesSet out1 → finishImages imagesSet out2 → out1 = out2.
Proof.
  intros Hidem (c1 & Hc1 & ->)%finishImages_spec (c2 & Hc2 & ->)%finishImages_spec.
  apply convertMirroredImages_normal_form in Hc1 as [-> _], Hc2 as [-> _]; done.
Qed.

Lemma GetImages_of_collected
    systemChartPath chartPath rancherVersion k3sUpgradeImages imagesFromArgs
    rkeSystemImages osType imagesSet :
  collectImages systemChartPath chartPath rancherVersion k3sUpgradeImages
    imagesFromArgs rkeSystemImages osType (Ok imagesSet) →
  ∃ lists, GetImages systemChartPath chartPath rancherVersion k3sUpgradeImages
             imagesFromArgs rkeSystemImages osType (Ok lists).
Proof.
  intros Hcollect. destruct (finishImages_total imagesSet) as [lists Hlists].
  exists lists. by apply (and_then_ok _ _ imagesSet).
Qed.

(** When each fetch phase is skipped or returns without an error, the
    accumulator is collected without an error. *)
Lemma collectImages_of_phases rancherVersion k3sUpgradeImages imagesFromArgs osType
    systemChartPath chartPath rkeSystemImages fromSystemCharts fromCharts fromSystem :
  (if String.eqb systemChartPath "" then fromSystemCharts = ∅
   else fetchImagesFromCharts systemChartPath rancherVersion osType ∅
          (Ok fromSystemCharts)) →
  (if String.eqb chartPath "" then fromCharts = fromSystemCharts
   else fetchImagesFromCharts chartPath rancherVersion osType fromSystemCharts
          (Ok fromCharts)) →
  (if (0 <? size rkeSystemImages)%nat
   then fetchImagesFromSystem rkeSystemImages osType fromCharts = Ok fromSystem
   else fromSystem = fromCharts) →
  collectImages systemChartPath chartPath rancherVersion k3sUpgradeImages
    imagesFromArgs rkeSystemImages osType
    (Ok (setImages "k3sUpgrade" k3sUpgradeImages
           (setImages "rancher" imagesFromArgs
              (setRequirementImages osType fromSystem)))).
Proof.
  intros H1 H2 H3. unfold collectImages.
  apply (and_then_ok _ _ fromSystemCharts).
  { destruct (String.eqb systemChartPath ""); cbn [negb]; [by subst |].
    apply may_wrap_inv. by exists (Ok fromSystemCharts). }
  apply (and_then_ok _ _ fromCharts).
  { destruct (String.eqb chartPath ""); cbn [negb]; [by subst |].
    apply may_wrap_inv. by exists (Ok fromCharts). }
  apply (and_then_ok _ _ fromSystem); [| done].
  destruct (0 <? size rkeSystemImages)%nat; [by rewrite H3 | by subst].
Qed.

(** With no repository to read, what is collected is a function of the
    arguments. *)
Lemma collectImages_no_paths rancherVersion k3sUpgradeImages imagesFromArgs
    rkeSystemImages osType r :
  collectImages "" "" rancherVersion k3sUpgradeImages imagesFromArgs rkeSystemImages
    osType r
  ↔ r = (fromSystem ← (if (0 <? size rkeSystemImages)%nat
                       then wrap (fetchImagesFromSystem rkeSystemImages osType ∅)
                              "failed to fetch images from system images" []
                       else Ok ∅);
         Ok (setImages "k3sUpgrade" k3sUpgradeImages
               (setImages "rancher" imagesFromArgs
                  (setRequirementImages osType fromSystem)))).
Proof.
  unfold collectImages. cbn [String.eqb negb].
  rewrite !and_then_ret.
  destruct (if (0 <? size rkeSystemImages)%nat then _ else _); done.
Qed.

(** What [GetImages] returns is the two lists, or what a fetch phase that
    was not skipped failed with. *)
Lemma GetImages_inv
    systemChartPath chartPath rancherVersion k3sUpgradeImages imagesFromArgs
    rkeSystemImages osType out :
  GetImages systemChartPath chartPath rancherVersion k3sUpgradeImages imagesFromArgs
    rkeSystemImages osType out →
  (∃ imagesSet,
     collectImages systemChartPath chartPath rancherVersion k3sUpgradeImages
       imagesFromArgs rkeSystemImages osType (Ok imagesSet)
     ∧ finishImages imagesSet out)
  ∨ (systemChartPath ≠ ""
     ∧ ∃ r, fetchImagesFromCharts systemChartPath rancherVersion osType ∅ r
            ∧ fails_with r "failed to fetch images from system charts" out)
  ∨ (chartPath ≠ ""
     ∧ ∃ imagesSet r, fetchImagesFromCharts chartPath rancherVersion osType imagesSet r
                      ∧ fails_with r "failed to fetch images from charts" out)
  ∨ ((0 < size rkeSystemImages)%nat
     ∧ ∃ imagesSet,
         fails_with (fetchImagesFromSystem rkeSystemImages osType imagesSet)
           "failed to fetch images from system images" out).
Proof.
  intros (r & Hcollect & Hout).
  assert (Hr : (∃ imagesSet, r = Ok imagesSet)
               ∨ match r with Ok _ => False | Err e => out = Err e | Panic => out = Panic end).
  { destruct r; [left; eauto | by right | by right]. }
  destruct Hr as [[imagesSet ->] | Hfail]; [left; eauto |]. right.
  assert (Hsame : ∀ r', match r with Ok _ => False | Err e => r' = Err e | Panic => r' = Panic end
                        → r' = r).
  { intros r'. by destruct r. }
  unfold collectImages in Hcollect.
  apply and_then_inv in Hcollect as [(a1 & _ & Hcollect) | Hphase]; last first.
  { left.
    assert (Hp : (if negb (String.eqb systemChartPath "")
                  then may_wrap (fetchImagesFromCharts systemChartPath rancherVersion osType ∅)
                         "failed to fetch images from system charts" []
                  else may_ret (Ok ∅)) r).
    { destruct Hphase as [(e & Hp & ->) | [Hp ->]]; done. }
    destruct (String.eqb_spec systemChartPath "") as [_ | Hne]; cbn [negb] in Hp.
    - unfold may_ret in Hp. subst r. done.
    - split; [done |]. apply may_wrap_inv in Hp as (r0 & Hr0 & ->).
      exists r0. split; [done |]. by apply fails_with_wrap. }
  apply and_then_inv in Hcollect as [(a2 & _ & Hcollect) | Hphase]; last first.
  { right. left.
    assert (Hp : (if negb (String.eqb chartPath "")
                  then may_wrap (fetchImagesFromCharts chartPath rancherVersion osType a1)
                         "failed to fetch images from charts" []
                  else may_ret (Ok a1)) r).
    { destruct Hphase as [(e & Hp & ->) | [Hp ->]]; done. }
    destruct (String.eqb_spec chartPath "") as [_ | Hne]; cbn [negb] in Hp.
    - unfold may_ret in Hp. subst r. done.
    - split; [done |]. apply may_wrap_inv in Hp as (r0 & Hr0 & ->).
      exists a1, r0. split; [done |]. by apply fails_with_wrap. }
  apply and_then_inv in Hcollect as [(a3 & _ & Hcollect) | Hphase].
  { unfold may_ret in Hcollect. subst r. done. }
  right. right.
  assert (Hp : r = (if (0 <? size rkeSystemImages)%nat
                    then wrap (fetchImagesFromSystem rkeSystemImages osType a2)
                           "failed to fetch images from system images" []
                    else Ok a2)).
  { destruct Hphase as [(e & Hp & ->) | [Hp ->]]; done. }
  destruct (Nat.ltb_spec 0 (size rkeSystemImages)) as [Hlt | _].
  - split; [done |]. exists a2. apply fails_with_wrap. by rewrite <- Hp.
  - subst r. done.
Qed.

(** With the mirror rule idempotent, two calls of [GetImages] on the same
    arguments return the same thing when the fetch phases come back with
    the same thing in both, whatever the order in which the mirror pass and
    the making of the lists range over the maps. What a call returns
    without an error is the list of the images in strictly ascending order,
    so sorted and each once, and for each image in that order its name, a
    space, and its sources sorted and joined by commas. The injection phases
    commute. *)
Theorem GetImages_is_deterministic_after_the_fetch_phases
    systemChartPath chartPath rancherVersion k3sUpgradeImages imagesFromArgs
    rkeSystemImages osType out1 :
  (∀ image, Mirror (Mirror image) = Mirror image) →
  GetImages systemChartPath chartPath rancherVersion k3sUpgradeImages imagesFromArgs
    rkeSystemImages osType out1 →
  ((∀ r1 r2,
      collectImages systemChartPath chartPath rancherVersion k3sUpgradeImages
        imagesFromArgs rkeSystemImages osType r1 →
      collectImages systemChartPath chartPath rancherVersion k3sUpgradeImages
        imagesFromArgs rkeSystemImages osType r2 →
      r1 = r2) →
   ∀ out2,
     GetImages systemChartPath chartPath rancherVersion k3sUpgradeImages imagesFromArgs
       rkeSystemImages osType out2 →
     out1 = out2)
  ∧ (∀ (imagesSet : ImagesSet) out out',
       finishImages imagesSet out → finishImages imagesSet out' → out = out')
  ∧ (∀ images lines, out1 = Ok (images, lines) →
       Sorted str_lt images
       ∧ ∃ converted : ImagesSet,
           (∀ image, image ∈ images ↔ image ∈ dom converted)
           ∧ lines = (λ image, image +:+ " "
                               +:+ Join (sorted_sources converted image) ",") <$> images
           ∧ ∀ image, Sorted str_lt (sorted_sources converted image)
                      ∧ ∀ s, s ∈ sorted_sources converted image
                             ↔ has_source converted image s)
  ∧ (∀ (imagesSet : ImagesSet) range_images range_sources,
       range_images ≡ₚ (map_to_list imagesSet).*1 →
       (∀ image inner, imagesSet !! image = Some inner →
                       range_sources image ≡ₚ map_to_list inner) →
       generateImageAndSourceLists_with range_images range_sources
       = generateImageAndSourceLists imagesSet)
  ∧ (∀ (imagesSet : ImagesSet) source1 images1 source2 images2,
       setImages source1 images1 (setImages source2 images2 imagesSet)
       = setImages source2 images2 (setImages source1 images1 imagesSet)
       ∧ setImages source1 images1 (setRequirementImages osType imagesSet)
         = setRequirementImages osType (setImages source1 images1 imagesSet)).
Proof.
  intros Hidem Hout1. split_and!.
  - intros Hsame out2 Hout2.
    destruct Hout1 as (r1 & Hr1 & Hout1), Hout2 as (r2 & Hr2 & Hout2).
    rewrite (Hsame r2 r1 Hr2 Hr1) in Hout2.
    destruct r1 as [imagesSet | e |].
    + by apply (finishImages_deterministic imagesSet).
    + unfold may_ret in Hout1, Hout2. congruence.
    + unfold may_ret in Hout1, Hout2. congruence.
  - intros imagesSet out out'. by apply finishImages_deterministic.
  - intros images lines ->.
    destruct Hout1 as ([imagesSet | e |] & _ & Hout1); [| done | done].
    apply finishImages_spec in Hout1 as (converted & _ & Hlists).
    rewrite generateImageAndSourceLists_spec in Hlists.
    injection Hlists as -> ->. split.
    + apply sort_strings_strict, NoDup_elements.
    + exists converted. split_and!; [| done | intros image; apply sorted_sources_spec].
      intros image. by rewrite elem_of_sort_strings, elem_of_elements.
  - intros imagesSet range_images range_sources Himages Hsources.
    rewrite generateImageAndSourceLists_spec.
    by apply generateImageAndSourceLists_with_spec.
  - intros imagesSet source1 images1 source2 images2. split.
    + apply setImages_comm.
    + apply setImages_setRequirementImages.
Qed.

(** ** Calls of [GetImages] that cannot fail *)

(** C10. [GetImages] returns a nil error whenever the three fetch phases are
    skipped or succeed. With the two paths empty and no system images it
    returns the two lists and a nil error, for every other argument: there
    is such a return, and no call returns anything else. In general, when
    each fetch phase is skipped or returns without an error, so does
    [GetImages]; and whatever [GetImages] returns is the two lists with a
    nil error, or what a fetch phase that was not skipped failed with, under
    the message of that phase: injecting the required images and the lists
    of the caller, the mirror pass and the making of the lists have no error
    to return. *)
Theorem GetImages_returns_no_error_of_its_own
    rancherVersion k3sUpgradeImages imagesFromArgs osType :
  (∃ lists, GetImages "" "" rancherVersion k3sUpgradeImages imagesFromArgs ∅ osType
              (Ok lists))
  ∧ (∀ out, GetImages "" "" rancherVersion k3sUpgradeImages imagesFromArgs ∅ osType out →
            ∃ lists, out = Ok lists)
  ∧ (∀ systemChartPath chartPath rkeSystemImages fromSystemCharts fromCharts fromSystem,
       (if String.eqb systemChartPath "" then fromSystemCharts = ∅
        else fetchImagesFromCharts systemChartPath rancherVersion osType ∅
               (Ok fromSystemCharts)) →
       (if String.eqb chartPath "" then fromCharts = fromSystemCharts
        else fetchImagesFromCharts chartPath rancherVersion osType fromSystemCharts
               (Ok fromCharts)) →
       (if (0 <? size rkeSystemImages)%nat
        then fetchImagesFromSystem rkeSystemImages osType fromCharts = Ok fromSystem
        else fromSystem = fromCharts) →
       ∃ lists, GetImages systemChartPath chartPath rancherVersion k3sUpgradeImages
                  imagesFromArgs rkeSystemImages osType (Ok lists))
  ∧ (∀ systemChartPath chartPath rkeSystemImages out,
       GetImages systemChartPath chartPath rancherVersion k3sUpgradeImages
         imagesFromArgs rkeSystemImages osType out →
       (∃ lists, out = Ok lists)
       ∨ (systemChartPath ≠ ""
          ∧ ∃ r, fetchImagesFromCharts systemChartPath rancherVersion osType ∅ r
                 ∧ fails_with r "failed to fetch images from system charts" out)
       ∨ (chartPath ≠ ""
          ∧ ∃ imagesSet r,
              fetchImagesFromCharts chartPath rancherVersion osType imagesSet r
              ∧ fails_with r "failed to fetch images from charts" out)
       ∨ ((0 < size rkeSystemImages)%nat
          ∧ ∃ imagesSet,
              fails_with (fetchImagesFromSystem rkeSystemImages osType imagesSet)
                "failed to fetch images from system images" out)).
Proof.
  split_and!.
  - eapply GetImages_of_collected.
    by apply (collectImages_of_phases rancherVersion _ _ osType "" "" ∅ ∅ ∅ ∅).
  - intros out [(imagesSet & _ & Hout) | Hfail]%GetImages_inv.
    + apply finishImages_spec in Hout as (converted & _ & ->). eauto.
    + destruct Hfail as [[Hne _] | [[Hne _] | [Hlt _]]]; [done | done |].
      rewrite map_size_empty in Hlt. lia.
  - intros systemChartPath chartPath rkeSystemImages a1 a2 a3 H1 H2 H3.
    eapply GetImages_of_collected.
    exact (collectImages_of_phases rancherVersion k3sUpgradeImages imagesFromArgs
             osType _ _ _ _ _ _ H1 H2 H3).
  - intros systemChartPath chartPath rkeSystemImages out
      [(imagesSet & _ & Hout) | Hfail]%GetImages_inv; [| by right].
    left. apply finishImages_spec in Hout as (converted & _ & ->). eauto.
Qed.


(** ** Running the mirror pass *)

(** Taking the keys of the accumulator one after the other, each once, and
    none of the entries created on the way, is one of the ways the loop may
    go. *)
Lemma range_run_in order st :
  NoDup order →
  rs_pending st = list_to_set order →
  list_to_set (C := gset string) order ⊆ dom (rs_map st) →
  range_run convert_body st (convertMirroredImages_in order (rs_map st)).
Proof.
  intros Hnodup. revert st.
  induction Hnodup as [| k order Hk Hnodup IH]; intros st Hpending Hsub.
  - constructor. by rewrite Hpending.
  - apply (range_run_next _ st (range_produce convert_body st k)).
    + constructor. rewrite Hpending. set_solver.
    + assert (list_to_set (C := gset string) order
              ⊆ dom (convert_body k (rs_map st))) as Hsub'.
      { intros i Hi. assert (i ≠ k) by (intros ->; by apply elem_of_list_to_set in Hi).
        destruct (decide (Mirror k = k)) as [Hfix | Hne].
        - rewrite convert_body_fixed by done. set_solver.
        - apply (dom_convert_body k (rs_map st) Hne). set_solver. }
      specialize (IH (range_produce convert_body st k)). cbn in IH. apply IH; [| done].
      rewrite Hpending. apply set_eq. intros i.
      rewrite elem_of_intersection, elem_of_difference, not_elem_of_singleton.
      cbn. rewrite elem_of_union, elem_of_singleton. split.
      * intros [[[-> | Hi] Hne] _]; done.
      * intros Hi. split_and!; [by right | | by apply Hsub'].
        intros ->. by apply elem_of_list_to_set in Hi.
Qed.

Lemma convertMirroredImages_in_elements (imagesSet : ImagesSet) :
  convertMirroredImages imagesSet
    (convertMirroredImages_in (elements (dom imagesSet)) imagesSet).
Proof.
  apply (range_run_in _ (range_start imagesSet)); cbn.
  - apply NoDup_elements.
  - by rewrite list_to_set_elements_L.
  - by rewrite list_to_set_elements_L.
Qed.

(** ** Running [GetImages] over a repository of charts *)

(** Taking the entries of the index in a given order is one of the ways the
    loop of [getChartVersions] may go. *)
Lemma getChartVersions_in path rancherVersion index entries :
  LoadIndex path = Ok index →
  entries ≡ₚ map_to_list index →
  getChartVersions path rancherVersion
    (getChartVersions_from path rancherVersion entries []).
Proof.
  intros Hindex Hentries. unfold getChartVersions.
  apply and_then_ret. rewrite Hindex. eauto.
Qed.

(** The call of [GetImages] on a repository of charts alone that takes the
    entries of its index in a given order. *)
Lemma GetImages_in chartPath rancherVersion k3sUpgradeImages imagesFromArgs osType
    index entries chartVersions fromCharts lists :
  chartPath ≠ "" →
  LoadIndex chartPath = Ok index →
  entries ≡ₚ map_to_list index →
  getChartVersions_from chartPath rancherVersion entries [] = Ok chartVersions →
  walk_values chartVersions chartPath osType (filepath_Walk chartPath) ∅
  = Ok fromCharts →
  (let imagesSet := setImages "k3sUpgrade" k3sUpgradeImages
                      (setImages "rancher" imagesFromArgs
                         (setRequirementImages osType fromCharts)) in
   generateImageAndSourceLists
     (convertMirroredImages_in (elements (dom imagesSet)) imagesSet)) = lists →
  GetImages "" chartPath rancherVersion k3sUpgradeImages imagesFromArgs ∅ osType
    (Ok lists).
Proof.
  intros Hpath Hindex Hentries Hversions Hwalk <-.
  eapply and_then_ok.
  - apply (collectImages_of_phases rancherVersion k3sUpgradeImages imagesFromArgs osType
             "" chartPath ∅ ∅ fromCharts fromCharts); [done | | done].
    apply String.eqb_neq in Hpath. rewrite Hpath.
    apply (and_then_ok _ _ chartVersions).
    + apply may_wrap_inv. eexists. split; [by apply (getChartVersions_in _ _ index) |].
      by rewrite Hversions.
    + unfold may_ret. by rewrite Hwalk.
  - apply finishImages_spec. eexists. split; [apply convertMirroredImages_in_elements |].
    done.
Qed.

End Package.

(** * The model on the sample data *)

Abbreviation sample_generateImages := (generateImages sample_Sprint_v).

Abbreviation sample_version_in_range :=
  (version_in_range nat sample_NewVersion sample_GreaterThan sample_LessThan
     sample_Equal sample_ReadFile sample_yaml_Unmarshal sample_Base sample_EqualFold).

Abbreviation sample_getVersions :=
  (getVersionsInRancherMinMaxRange nat sample_NewVersion sample_GreaterThan
     sample_LessThan sample_Equal sample_ReadFile sample_yaml_Unmarshal sample_Base
     sample_EqualFold).

Definition sample_GetImages :=
  GetImages sample_Sprint_v nat sample_NewVersion sample_GreaterThan sample_LessThan
    sample_Equal sample_ReadFile sample_yaml_Unmarshal sample_Base sample_Rel
    sample_Walk sample_EqualFold sample_LoadIndex "rancher/shell:v0.1.18"
    sample_Mirror unit sample_ToObj.

Example strings_functions :
  TrimSpace (ToLower "  WinDows ") = "windows"
  ∧ Split "windows, linux" "," = ["windows"; " linux"]
  ∧ Split "" "," = [""]
  ∧ Join ["core"; "rancher"; "system"] "," = "core,rancher,system"
  ∧ Contains "/src/build/system-charts/charts" SystemChartsRepoDir = true
  ∧ Contains "/src/build/charts" SystemChartsRepoDir = false
  ∧ sort_strings ["rancher"; "core"; "system"] = ["core"; "rancher"; "system"].
Proof. repeat split; reflexivity. Qed.

(** The second scenario of the specification: target 2.6.3, v1 with the
    range 2.5.0 - 2.6.0 and v2 with the minimum 2.6.1: v2 alone is selected. *)
Example scenario_selects_v2 :
  sample_getVersions "2.6.3" [sample_v2; sample_v1] = Ok [sample_v2].
Proof. reflexivity. Qed.

(** The mirror scenario of the specification. *)
Example scenario_mirror :
  convertMirroredImages_in sample_Mirror (elements (dom sample_mirrored)) sample_mirrored
  = {[ "foo:1.0" := {[ "chartA" := true ]} ]}.
Proof. vm_compute. reflexivity. Qed.

(** Two names that collapse into one: the sources are united. *)
Example scenario_collapse :
  generateImageAndSourceLists
    (convertMirroredImages_in sample_Mirror (elements (dom sample_collapsing))
       sample_collapsing)
  = (["foo:1.0"], ["foo:1.0 chartA,chartB"]).
Proof. vm_compute. reflexivity. Qed.

(** A mapping inside a sequence: [walkMap] visits it, [walkthroughMap] does
    not. *)
Example walkers_on_a_sequence :
  visits (Mapping values_with_sequence) = [values_with_sequence; node_plain]
  ∧ visits_through values_with_sequence = [values_with_sequence]
  ∧ subtree (Mapping values_with_sequence) [0; 0] = Some (Mapping node_plain).
Proof. repeat split; reflexivity. Qed.

Lemma sample_Mirror_idem image : sample_Mirror (sample_Mirror image) = sample_Mirror image.
Proof.
  unfold sample_Mirror.
  destruct (String.eqb_spec image "docker.io/foo:1.0") as [-> | Hne]; [reflexivity |].
  destruct (String.eqb_spec image "docker.io/foo:1.0"); [contradiction | reflexivity].
Defined.

(** ** C1 *)

Lemma os_partition_of_extractors_witness :
  (sample_generateImages "foo:v2" node_windows ∅ Linux = ∅
   ∧ pickImage "foo:v2" Linux node_windows ∅ = ∅)
  ∧ (sample_generateImages "foo:v2" node_plain ∅ Windows = ∅
     ∧ pickImage "foo:v2" Windows node_plain ∅ = ∅)
  ∧ has_source (pickImage "foo:v2" Windows node_both ∅) "rancher/foo:1.0" "foo:v2"
  ∧ has_source (pickImage "foo:v2" Linux node_both ∅) "rancher/foo:1.0" "foo:v2".
Proof.
  refine (conj _ (conj _ (conj _ _))).
  - exact (proj1 (os_partition_of_extractors sample_Sprint_v "foo:v2" node_windows ∅)
             eq_refl).
  - exact (proj1 (proj2 (os_partition_of_extractors sample_Sprint_v "foo:v2" node_plain ∅))
             eq_refl).
  - exact (proj2 (proj1 (proj2 (proj2 (os_partition_of_extractors sample_Sprint_v
                                         "foo:v2" node_both ∅))
                           eq_refl "rancher/foo" eq_refl) "1.0" eq_refl Windows)).
  - exact (proj2 (proj1 (proj2 (proj2 (os_partition_of_extractors sample_Sprint_v
                                         "foo:v2" node_both ∅))
                           eq_refl "rancher/foo" eq_refl) "1.0" eq_refl Linux)).
Defined.

(** A node with [os: "windows,linux"] is left out of the Windows run by
    [generateImages], which puts it into the Linux run. *)
Lemma generateImages_misses_windows_in_list :
  sample_generateImages "foo:v2" node_both ∅ Windows = ∅
  ∧ has_source (sample_generateImages "foo:v2" node_both ∅ Linux)
      "rancher/foo:1.0" "foo:v2".
Proof.
  split; [reflexivity |].
  apply (has_source_addSourceToImage ∅ "rancher/foo:1.0" ["foo:v2"]).
  left. split; [reflexivity | by left].
Qed.

(** ** C7 *)

(** The node [{repository: rancher/foo, tag: 7}] below the key [image], for a
    Linux run and the chart [foo:v2]: [generateImages] adds [rancher/foo:7],
    the visitor of [pickImagesFromValuesMap] leaves the empty accumulator
    empty, and so does [pickImagesFromValuesMap] on the values. *)
Lemma pickImagesFromValuesMap_skips_a_non_string_tag_witness :
  has_source (sample_generateImages "foo:v2" node_int_tag ∅ Linux)
    "rancher/foo:7" "foo:v2"
  ∧ pickImage "foo:v2" Linux node_int_tag ∅ = ∅
  ∧ pickImagesFromValuesMap ∅ values_int_tag "foo:v2" Linux = Ok ∅.
Proof.
  pose proof (pickImagesFromValuesMap_skips_a_non_string_tag sample_Sprint_v
                "foo:v2" node_int_tag ∅ Linux "rancher/foo" (Scalar (SInt 7))
                eq_refl eq_refl eq_refl) as (Hgenerate & Hvisitor & Hvalues).
  split_and!.
  - exact (proj2 (Hgenerate eq_refl)).
  - exact Hvisitor.
  - exact (Hvalues values_int_tag [values_int_tag] [] eq_refl).
Defined.

(** The same values through the walker of each extractor: the walk of
    [pickImagesFromValuesYAML] with [generateImages] collects the image with
    its tag printed, [pickImagesFromValuesMap] collects nothing. *)
Example integer_tag_through_both_extractors :
  walkthroughMap (λ inputMap output, sample_generateImages "foo:v2" inputMap output Linux)
    values_int_tag ∅
  = {[ "rancher/foo:7" := {[ "foo:v2" := true ]} ]}
  ∧ pickImagesFromValuesMap ∅ values_int_tag "foo:v2" Linux = Ok ∅
  ∧ pickImagesFromValuesMap ∅ values_int_tag "foo:v2" Windows = Ok ∅.
Proof. vm_compute. repeat split; reflexivity. Qed.


(** ** C2 *)


(** ** C3 *)


(** ** C4 *)

Lemma sample_mirrored_run :
  convertMirroredImages sample_Mirror sample_mirrored
    {[ "foo:1.0" := {[ "chartA" := true ]} ]}.
Proof.
  pose proof (convertMirroredImages_in_elements sample_Mirror sample_mirrored) as Hrun.
  by rewrite scenario_mirror in Hrun.
Defined.

Lemma mirror_pass_renames_witness :
  convertMirroredImages sample_Mirror sample_mirrored
    {[ "foo:1.0" := {[ "chartA" := true ]} ]}
  ∧ ({[ "foo:1.0" := {[ "chartA" := true ]} ]} : ImagesSet) !! "docker.io/foo:1.0" = None
  ∧ has_source {[ "foo:1.0" := {[ "chartA" := true ]} ]} "foo:1.0" "chartA".
Proof.
  split; [exact sample_mirrored_run |].
  destruct (proj1 (mirror_pass_renames sample_Mirror sample_Mirror_idem _ _
                     sample_mirrored_run) "docker.io/foo:1.0") as [Habsent Hcarried].
  - intros [=].
  - split; [exact Habsent |]. apply Hcarried.
    exists {[ "chartA" := true ]}. split; reflexivity.
Defined.

(** ** C5 *)

Lemma mirror_pass_idempotent_witness :
  ∃ once, convertMirroredImages sample_Mirror sample_collapsing once
          ∧ convertMirroredImages sample_Mirror once once
          ∧ (∀ twice, convertMirroredImages sample_Mirror once twice → twice = once).
Proof.
  destruct (mirror_pass_idempotent sample_Mirror sample_Mirror_idem sample_collapsing)
    as (_ & [once Honce] & _ & Hagain).
  exists once. split; [exact Honce |]. exact (Hagain once Honce).
Defined.

(** ** C6 *)


(** ** C8 *)

(** C8. Output determinism does not hold for [GetImages] on a repository of
    charts: two calls with the same arguments, over the same files and the
    same index, may return different lists. In the repository [charts] the
    directory [foo] of one chart is a prefix of the path
    [foo-crd/values.yaml] of the values of the other; the image of that file
    is listed under the source [foo:1.0] when the loop over the index takes
    the entry [foo] first, and under [foo-crd:1.0] when it takes [foo-crd]
    first. Both calls return the same sorted list of images. *)
Theorem GetImages_labels_follow_the_order_of_the_index :
  sample_GetImages "" "charts" "2.6.3" [] [] ∅ Linux
    (Ok (["busybox"; "rancher/foo-crd:1.0"; "rancher/shell:v0.1.18"],
         ["busybox core"; "rancher/foo-crd:1.0 foo:1.0";
          "rancher/shell:v0.1.18 core"]))
  ∧ sample_GetImages "" "charts" "2.6.3" [] [] ∅ Linux
      (Ok (["busybox"; "rancher/foo-crd:1.0"; "rancher/shell:v0.1.18"],
           ["busybox core"; "rancher/foo-crd:1.0 foo-crd:1.0";
            "rancher/shell:v0.1.18 core"])).
Proof.
  assert (Hindex : map_to_list sample_index
                   = [("foo-crd", [sample_chart_foo_crd]); ("foo", [sample_chart_foo])])
    by (vm_compute; reflexivity).
  split.
  - eapply (GetImages_in _ _ _ _ _ _ _ _ _ _ _ _ _ _ _ _ _ _ _ _ _ _ sample_index
              [("foo", [sample_chart_foo]); ("foo-crd", [sample_chart_foo_crd])]
              [sample_chart_foo; sample_chart_foo_crd]).
    + discriminate.
    + reflexivity.
    + rewrite Hindex. apply perm_swap.
    + reflexivity.
    + vm_compute. reflexivity.
    + vm_compute. reflexivity.
  - eapply (GetImages_in _ _ _ _ _ _ _ _ _ _ _ _ _ _ _ _ _ _ _ _ _ _ sample_index
              [("foo-crd", [sample_chart_foo_crd]); ("foo", [sample_chart_foo])]
              [sample_chart_foo_crd; sample_chart_foo]).
    + discriminate.
    + reflexivity.
    + by rewrite Hindex.
    + reflexivity.
    + vm_compute. reflexivity.
    + vm_compute. reflexivity.
Qed.

(** ** After the fetch phases *)

Lemma GetImages_is_deterministic_after_the_fetch_phases_witness :
  ∃ lists,
    sample_GetImages "" "" "2.6.3" ["rancher/k3s-upgrade:v0.9"]
      ["docker.io/foo:1.0"; "busybox"] ∅ Linux (Ok lists)
    ∧ ∀ out, sample_GetImages "" "" "2.6.3" ["rancher/k3s-upgrade:v0.9"]
               ["docker.io/foo:1.0"; "busybox"] ∅ Linux out →
             Ok lists = out.
Proof.
  assert (∃ lists,
            sample_GetImages "" "" "2.6.3" ["rancher/k3s-upgrade:v0.9"]
              ["docker.io/foo:1.0"; "busybox"] ∅ Linux (Ok lists)) as [lists Hlists].
  { eapply GetImages_of_collected.
    apply collectImages_of_phases
      with (fromSystemCharts := ∅) (fromCharts := ∅) (fromSystem := ∅); reflexivity. }
  exists lists. split; [exact Hlists |].
  refine (proj1 (GetImages_is_deterministic_after_the_fetch_phases _ _ _ _ _ _ _ _ _ _
                   _ _ _ _ _ _ _ _ _ _ _ _ _ _ (Ok lists) sample_Mirror_idem Hlists) _).
  intros r1 r2 Hr1 Hr2.
  apply collectImages_no_paths in Hr1. apply collectImages_no_paths in Hr2.
  rewrite Hr1, Hr2. reflexivity.
Defined.

(** ** C9 *)

Lemma sources_are_united_witness :
  has_source (emit_all [("busybox", "core"); ("busybox", "rancher")] ∅)
    "busybox" "core"
  ∧ has_source (emit_all [("busybox", "core"); ("busybox", "rancher")] ∅)
      "busybox" "rancher"
  ∧ image_line (emit_all [("busybox", "core"); ("busybox", "rancher")] ∅) "busybox"
    = "busybox core,rancher".
Proof.
  pose proof (proj1 (sources_are_united ∅ [("busybox", "core"); ("busybox", "rancher")]
                       "busybox")) as Hunion.
  split; [apply Hunion; left; by left |].
  split; [apply Hunion; left; right; by left |].
  vm_compute. reflexivity.
Defined.

(** ** C10 *)

Lemma GetImages_returns_no_error_of_its_own_witness :
  ∃ lists, sample_GetImages "" "" "2.6.3" ["rancher/k3s-upgrade:v0.9"]
             ["docker.io/foo:1.0"] ∅ Windows (Ok lists).
Proof.
  exact (proj1 (GetImages_returns_no_error_of_its_own sample_Sprint_v nat
                  sample_NewVersion sample_GreaterThan sample_LessThan sample_Equal
                  sample_ReadFile sample_yaml_Unmarshal sample_Base sample_Rel
                  sample_Walk sample_EqualFold sample_LoadIndex
                  "rancher/shell:v0.1.18" sample_Mirror unit sample_ToObj
                  "2.6.3" ["rancher/k3s-upgrade:v0.9"] ["docker.io/foo:1.0"] Windows)).
Defined.

(** ** The sibling paths *)

Lemma ranged_selection_stops_at_first_error_witness :
  sample_getVersions "2.6.3" [sample_v2; sample_v3; sample_v1]
  = Err (LibError "yaml: unmarshal errors").
Proof.
  refine (ranged_selection_stops_at_first_error nat sample_NewVersion
            sample_GreaterThan sample_LessThan sample_Equal sample_ReadFile
            sample_yaml_Unmarshal sample_Base sample_EqualFold "2.6.3"
            [sample_v2] sample_v3 [sample_v1] _ _ eq_refl).
  intros w Hw. apply list_elem_of_singleton in Hw. rewrite Hw. exists true. reflexivity.
Defined.

Lemma filterChartVersions_may_return_no_version_witness :
  (filterChartVersions sample_show sample_rc [sample_v1]).1 = Ok [].
Proof.
  refine (filterChartVersions_may_return_no_version sample_show sample_rc [sample_v1] _).
  intros v Hv. apply list_elem_of_singleton in Hv. rewrite Hv. exists []. reflexivity.
Defined.
